(** * Sequential Racos (SRacos): archives, replacement strategies and drivers

    A shallow embedding of [zoopt/algos/opt_algorithms/racos/sracos.py]:
    the classes [SRacos] (synchronous driver) and [SRacosTune]
    (suggest/complete driver), which share [replace], [binary_search],
    [strategy_wr], [strategy_rr], [strategy_lm] and [distance] verbatim.

    Conventions of the embedding.
    - Python integers are [Z]; list indices are [Z] and go through
      [Py.getitem], which follows Python's rule for negative indices.
    - Objective values and coordinates are finite numbers, modelled as
      rationals [Q]: every finite float is a rational and the code only
      compares values, which is exact.  NaN and the infinities appear only as
      the [result] argument of [complete].
    - A Python exception (IndexError, ValueError, RecursionError) is [None].
    - A list mutated in place is returned next to the function's result.
    - Random draws and the collaborators that are not part of this file
      (samplers, the objective, the stopping criterion, the clock) are
      arguments supplying what the call returned. *)

From Stdlib Require Import ZArith QArith Lqa Lia.
From stdpp Require Import base option list.

Local Open Scope Z_scope.

(** ** Solutions *)

Record Solution := mkSolution { get_x : list Q; get_value : Q }.

Definition set_value (s : Solution) (v : Q) : Solution :=
  mkSolution (get_x s) v.

(** Python's [a < b] on finite numbers. *)
Definition Qlt_bool (a b : Q) : bool := negb (Qle_bool b a).

(** ** Python list operations *)

Module Py.

Definition len {A} (l : list A) : Z := Z.of_nat (length l).

(** [l[i]]: a negative index counts from the end; out of range raises. *)
Definition getitem {A} (l : list A) (i : Z) : option A :=
  if 0 <=? i then l !! Z.to_nat i
  else if 0 <=? len l + i then l !! Z.to_nat (len l + i)
  else None.

(** [l[i] = x] *)
Definition setitem {A} (l : list A) (i : Z) (x : A) : option (list A) :=
  if 0 <=? i then
    if i <? len l then Some (<[Z.to_nat i := x]> l) else None
  else if 0 <=? len l + i then Some (<[Z.to_nat (len l + i) := x]> l)
  else None.

(** [l.insert(i, x)]: the index is clipped to [0, len l]. *)
Definition insert {A} (l : list A) (i : Z) (x : A) : list A :=
  let k := if 0 <=? i then Z.to_nat i else Z.to_nat (len l + i) in
  take k l ++ x :: drop k l.

(** [l.pop()]: the last element and the list without it. *)
Definition pop {A} (l : list A) : option (A * list A) :=
  e ← last l; Some (e, take (length l - 1) l).

(** [min(l, key=lambda s: s.get_value())]: the first minimum. *)
Fixpoint min_by_value_from (best : Solution) (l : list Solution) : Solution :=
  match l with
  | [] => best
  | s :: l' =>
      if Qlt_bool (get_value s) (get_value best)
      then min_by_value_from s l' else min_by_value_from best l'
  end.

Definition min_by_value (l : list Solution) : option Solution :=
  match l with
  | [] => None
  | s :: l' => Some (min_by_value_from s l')
  end.

End Py.

(** Modelled from the spec: [Solution.find_maximum] lives in
    [zoopt/solution.py], which is not among the sources.  The spec says it
    "find[s] the element with the maximum value"; [strategy_wr] reads its
    result as the pair (element, index).  The scan keeps the first maximum;
    an empty list has no element to return. *)
Fixpoint find_maximum_from (rest : list Solution) (i : Z)
    (maxi : Solution) (max_index : Z) : Solution * Z :=
  match rest with
  | [] => (maxi, max_index)
  | s :: rest' =>
      if Qlt_bool (get_value maxi) (get_value s)
      then find_maximum_from rest' (i + 1) s i
      else find_maximum_from rest' (i + 1) maxi max_index
  end.

Definition find_maximum (iset : list Solution) : option (Solution * Z) :=
  match iset with
  | [] => None
  | s :: rest => Some (find_maximum_from rest 1 s 0)
  end.

(** ** Replacement strategies *)

Inductive iset_type := pos | neg.
Inductive strategy := WR | RR | LM.

(** [binary_search(iset, x, begin, end)].  [depth] is the number of stack
    frames the recursion may still use. *)
Fixpoint binary_search (depth : nat) (iset : list Solution) (x : Solution)
    (begin end_ : Z) : option Z :=
  match depth with
  | O => None
  | S depth' =>
      let x_value := get_value x in
      b ← Py.getitem iset begin;
      if Qle_bool x_value (get_value b) then Some begin else
      e ← Py.getitem iset end_;
      if Qle_bool (get_value e) x_value then Some (end_ + 1) else
      if end_ =? begin + 1 then Some end_ else
      let mid := begin + (end_ - begin) / 2 in
      m ← Py.getitem iset mid;
      if Qle_bool x_value (get_value m)
      then binary_search depth' iset x begin mid
      else binary_search depth' iset x mid end_
  end.

(** The recursion budget [strategy_wr] runs the search with: the interval
    is halved at each call, so [len(iset) + 1] frames are never used up
    ([binary_search_depth_enough]), and a larger budget returns the same
    index ([binary_search_depth_mono]). *)
Definition search_depth (iset : list Solution) : nat := S (length iset).

Definition strategy_wr (iset : list Solution) (x : Solution) (ty : iset_type)
    : option (Solution * list Solution) :=
  match ty with
  | pos =>
      index ← binary_search (search_depth iset) iset x 0 (Py.len iset - 1);
      Py.pop (Py.insert iset index x)
  | neg =>
      '(worst_ele, worst_index) ← find_maximum iset;
      if Qlt_bool (get_value x) (get_value worst_ele)
      then iset' ← Py.setitem iset worst_index x; Some (worst_ele, iset')
      else Some (x, iset)
  end.

(** [r] is what [np.random.randint(0, len_iset)] returned; the call raises
    on an empty range. *)
Definition strategy_rr (iset : list Solution) (x : Solution) (r : Z)
    : option (Solution * list Solution) :=
  let len_iset := Py.len iset in
  if (0 <=? r) && (r <? len_iset) then
    replace_ele ← Py.getitem iset r;
    iset' ← Py.setitem iset r x;
    Some (replace_ele, iset')
  else None.

Section Distance.

(** [np.sqrt].  The development needs of it only that it returns no
    negative number. *)
Variable np_sqrt : Q → Q.

Fixpoint distance_loop (dis : Q) (x y : list Q) : option Q :=
  match x with
  | [] => Some dis
  | a :: x' =>
      match y with
      | [] => None
      | b :: y' => distance_loop (dis + (a - b) ^ 2)%Q x' y'
      end
  end.

Definition distance (x y : list Q) : option Q :=
  dis ← distance_loop 0%Q x y; Some (np_sqrt dis).

(** The [for] loop of [strategy_lm], at index [i] with [rest = iset[i:]]. *)
Fixpoint strategy_lm_loop (rest : list Solution) (i : Z) (best_sol : Solution)
    (farthest_dis : Q) (farthest_index : Z) : option (Q * Z) :=
  match rest with
  | [] => Some (farthest_dis, farthest_index)
  | s :: rest' =>
      dis ← distance (get_x s) (get_x best_sol);
      if Qlt_bool farthest_dis dis
      then strategy_lm_loop rest' (i + 1) best_sol dis i
      else strategy_lm_loop rest' (i + 1) best_sol farthest_dis farthest_index
  end.

Definition strategy_lm (iset : list Solution) (best_sol x : Solution)
    : option (Solution * list Solution) :=
  '(_, farthest_index) ← strategy_lm_loop iset 0 best_sol 0%Q 0;
  farthest_ele ← Py.getitem iset farthest_index;
  iset' ← Py.setitem iset farthest_index x;
  Some (farthest_ele, iset').

(** [replace(iset, x, iset_type, strategy)]: the replaced solution and
    the list after the replacement. *)
Definition replace (iset : list Solution) (x : Solution) (ty : iset_type)
    (strat : strategy) (r : Z) : option (Solution * list Solution) :=
  match strat with
  | WR => strategy_wr iset x ty
  | RR => strategy_rr iset x r
  | LM => best_sol ← Py.min_by_value iset; strategy_lm iset best_sol x
  end.

End Distance.

(** ** State shared by both drivers ([RacosCommon]) *)

Record Params := mkParams {
  get_budget : Z;
  get_train_size : Z;
  get_positive_size : Z;
  get_terminal_value : option Q;
  get_server_num : Z
}.

Record RacosCommon := mkRacosCommon {
  _data : list Solution;
  _positive_data : list Solution;
  _negative_data : list Solution;
  _best_solution : option Solution
}.

(** What a sampler returned: [(solution, distinct_flag)], either of which
    may be Python's [None]. *)
Definition draw : Type := option Solution * option bool.

(** [distinct_flag is False] *)
Definition is_False (flag : option bool) : bool :=
  match flag with Some false => true | _ => false end.

(** [sorted(data, key=lambda x: x.get_value())]: a stable sort. *)
Fixpoint insert_by_value (s : Solution) (l : list Solution) : list Solution :=
  match l with
  | [] => [s]
  | a :: l' =>
      if Qlt_bool (get_value s) (get_value a) then s :: l
      else a :: insert_by_value s l'
  end.

Definition sorted_by_key (l : list Solution) : list Solution :=
  foldr insert_by_value [] l.

(** Modelled from the spec: [RacosCommon.selection] lives in
    [racos_common.py], which is not among the sources.  Following the spec
    ("split/sort into positive/negative archives"), the staged solutions
    are sorted by value, the first [positive_size] of them become the
    positive archive, the following ones up to [train_size] the negative
    archive, and the best solution is re-read at index 0. *)
Definition selection (p : Params) (c : RacosCommon) : option RacosCommon :=
  let new_data := sorted_by_key (_data c) in
  let kept := take (Z.to_nat (get_train_size p)) new_data in
  let positive := take (Z.to_nat (get_positive_size p)) new_data in
  best ← Py.getitem positive 0;
  Some (mkRacosCommon kept positive
          (drop (Z.to_nat (get_positive_size p)) kept) (Some best)).

Section Drivers.

Variable np_sqrt : Q → Q.

(** The three statements both drivers run after an evaluation:
    [bad_ele = self.replace(self._positive_data, solution, 'pos')],
    [self.replace(self._negative_data, bad_ele, 'neg', strategy)],
    [self._best_solution = self._positive_data[0]].
    The first call passes no strategy, so it runs with the default
    ['WR']. *)
Definition update_archives (c : RacosCommon) (solution : Solution)
    (strat : strategy) (r : Z) : option RacosCommon :=
  '(bad_ele, positive) ← replace np_sqrt (_positive_data c) solution pos WR r;
  '(_, negative) ← replace np_sqrt (_negative_data c) bad_ele neg strat r;
  best ← Py.getitem positive 0;
  Some (mkRacosCommon (_data c) positive negative (Some best)).

(** *** The synchronous driver, [SRacos.opt] *)

Record opt_state := mkOptState {
  opt_common : RacosCommon;
  opt_i : Z;
  current_not_distinct_times : Z
}.

(** What the outside world hands to one pass through the loop body. *)
Record iteration := mkIteration {
  sampled : draw;           (* distinct_sample / distinct_sample_classifier *)
  evaluated : Q;            (* the value objective.eval stores *)
  rand_index : Z;           (* np.random.randint, drawn by strategy_rr *)
  time_budget_out : bool;   (* a time budget is set and has run out *)
  criterion : bool          (* stopping_criterion.check(self) is True *)
}.

(** The [return] statement that ended the run. *)
Inductive exit :=
| SolutionIsNone | NotDistinctTooMuch | TimeBudgetOut | TerminalValueReached
| CriterionMet | BudgetSpent.

Inductive step :=
| Continue (st : opt_state)
| Return (e : exit) (best : option Solution).

Definition max_distinct_repeat_times : Z := 100.

Definition terminal_reached (p : Params) (best : Solution) : bool :=
  match get_terminal_value p with
  | Some tv => Qle_bool (get_value best) tv
  | None => false
  end.

(** One pass through the body of [while i < iteration_num]. *)
Definition opt_body (p : Params) (strat : strategy) (st : opt_state)
    (ev : iteration) : option step :=
  let c := opt_common st in
  match fst (sampled ev) with
  | None => Some (Return SolutionIsNone (_best_solution c))
  | Some solution =>
      if is_False (snd (sampled ev)) then
        let times := current_not_distinct_times st + 1 in
        if max_distinct_repeat_times <=? times
        then Some (Return NotDistinctTooMuch (_best_solution c))
        else Some (Continue (mkOptState c (opt_i st) times))
      else
        let solution := set_value solution (evaluated ev) in
        c' ← update_archives c solution strat (rand_index ev);
        best ← _best_solution c';
        if time_budget_out ev then Some (Return TimeBudgetOut (Some best))
        else if terminal_reached p best
        then Some (Return TerminalValueReached (Some best))
        else if criterion ev then Some (Return CriterionMet (Some best))
        else Some (Continue
               (mkOptState c' (opt_i st + 1) (current_not_distinct_times st)))
  end.

Inductive run :=
| Running (st : opt_state)
| Returned (e : exit) (best : option Solution).

(** The loop, fed with the outcomes of as many passes as [evs] holds. *)
Fixpoint opt_loop (p : Params) (strat : strategy) (st : opt_state)
    (evs : list iteration) : option run :=
  let iteration_num := get_budget p - get_train_size p in
  if opt_i st <? iteration_num then
    match evs with
    | [] => Some (Running st)
    | ev :: evs' =>
        s ← opt_body p strat st ev;
        match s with
        | Continue st' => opt_loop p strat st' evs'
        | Return e best => Some (Returned e best)
        end
    end
  else Some (Returned BudgetSpent (_best_solution (opt_common st))).

(** *** The suggest/complete driver, [SRacosTune] *)

Record tune_state := mkTuneState {
  tune_common : RacosCommon;
  init_num : Z;
  complete_num : Z;
  semaphore : Z;
  live_num : Z
}.

(** What [suggest] returns: nothing, the string ["FINISHED"], or a
    solution. *)
Inductive suggestion :=
| Nothing
| Finished
| Suggested (s : Solution).

Definition return_solution (s : option Solution) : suggestion :=
  match s with Some x => Suggested x | None => Nothing end.

(** [suggest()]; [d] is what [tune_init_attribute] or [sample_solution]
    returns if this call reaches one of them. *)
Definition suggest (p : Params) (st : tune_state) (d : draw)
    : tune_state * suggestion :=
  if semaphore st =? 0 then (st, Nothing)
  else if init_num st <? get_train_size p then
    if is_False (snd d) then (st, Finished)
    else (mkTuneState (tune_common st) (init_num st + 1) (complete_num st)
            (semaphore st) (live_num st + 1), return_solution (fst d))
  else if init_num st =? get_train_size p then
    (mkTuneState (tune_common st) (init_num st + 1) (complete_num st)
       0 (live_num st), Nothing)
  else if live_num st <? get_server_num p then
    if is_False (snd d) then (st, Finished)
    else (mkTuneState (tune_common st) (init_num st + 1) (complete_num st)
            (semaphore st) (live_num st + 1), return_solution (fst d))
  else
    (mkTuneState (tune_common st) (init_num st + 1) (complete_num st)
       (semaphore st) (live_num st), Nothing).

(** [update_classifier(solution, strategy)]: both checks that follow the
    update return the same best solution. *)
Definition update_classifier (c : RacosCommon) (solution : Solution)
    (strat : strategy) (r : Z) : option (RacosCommon * option Solution) :=
  c' ← update_archives c solution strat r;
  Some (c', _best_solution c').

(** The evaluation result handed to [complete]. *)
Inductive result := Finite (v : Q) | PosInf | NegInf | NaN.

Definition isnan (r : result) : bool :=
  match r with NaN => true | _ => false end.

Definition isinf (r : result) : bool :=
  match r with PosInf | NegInf => true | _ => false end.

(** [complete(solution, result)]: the state after the call and the value
    returned.  [update_classifier] is called without a strategy, hence
    with ['WR'], which draws no random index. *)
Definition complete (p : Params) (st : tune_state) (solution : Solution)
    (res : result) : option (tune_state * option Solution) :=
  let complete_num' := complete_num st + 1 in
  let live_num' := live_num st - 1 in
  let c := tune_common st in
  match res with
  | Finite v =>
      let solution := set_value solution v in
      if complete_num' <? get_train_size p then
        c' ← selection p (mkRacosCommon (_data c ++ [solution])
                            (_positive_data c) (_negative_data c)
                            (_best_solution c));
        Some (mkTuneState c' (init_num st) complete_num' (semaphore st)
                live_num', None)
      else if complete_num' =? get_train_size p then
        '(c', best) ← update_classifier c solution WR 0;
        Some (mkTuneState c' (init_num st) complete_num' 1 live_num', best)
      else
        '(c', best) ← update_classifier c solution WR 0;
        Some (mkTuneState c' (init_num st) complete_num' (semaphore st)
                live_num', best)
  | _ =>
      let semaphore' :=
        if complete_num' =? get_train_size p then 1 else semaphore st in
      Some (mkTuneState c (init_num st) complete_num' semaphore' live_num',
            _best_solution c)
  end.

End Drivers.

(** ** Uncertain bits *)

(** Modelled from the spec: the dimension descriptor is not among the
    sources; [choose_ub] asks it for its size and whether it is
    discrete. *)
Record Dimension := mkDimension { get_size : Z; is_discrete : bool }.

(** [Objective], with the two attributes of [Racos/Component/Objective.py];
    [SRacosTune.__init__] builds it with no function. *)
Record Objective := mkObjective {
  get_func : option (list Q → Q);
  get_dim : Dimension
}.

(** [SRacosTune.choose_ub(objective)] *)
Definition choose_ub (objective : Objective) : Z :=
  let dim := get_dim objective in
  let dim_size := get_size dim in
  if negb (is_discrete dim) then
    if dim_size <=? 100 then 1
    else if dim_size <=? 1000 then 2
    else 3
  else
    if dim_size <=? 10 then 1
    else if dim_size <=? 50 then 2
    else if dim_size <=? 100 then 3
    else if dim_size <=? 1000 then 4
    else 5.

(** An instance of [np.sqrt] to run the model on concrete inputs: exact on
    the rationals whose numerator and denominator are perfect squares. *)
Definition sqrt_exact (q : Q) : Q := Z.sqrt (Qnum q) # Pos.sqrt (Qden q).

(** ** Sorted archives *)

(** [value[i] <= value[i+1]] for every pair of neighbours. *)
Definition sorted_by_value (l : list Solution) : Prop :=
  ∀ (i : nat) a b, l !! i = Some a → l !! S i = Some b →
    (get_value a <= get_value b)%Q.

Fixpoint is_sorted (l : list Solution) : bool :=
  match l with
  | a :: (b :: _) as l' => Qle_bool (get_value a) (get_value b) && is_sorted l'
  | _ => true
  end.


(** The maximum value of an archive, if it has an element. *)
Fixpoint max_value (l : list Solution) : option Q :=
  match l with
  | [] => None
  | a :: l' =>
      match max_value l' with
      | None => Some (get_value a)
      | Some m => Some (if Qle_bool m (get_value a) then get_value a else m)
      end
  end.

(** ** Notions the properties are stated with *)

(** For comparison with [update_archives]: the update as the spec words
    it, with the configured strategy applied to both archives. *)
Definition update_archives_same_strategy (np_sqrt : Q → Q) (c : RacosCommon)
    (solution : Solution) (strat : strategy) (r : Z) : option RacosCommon :=
  '(bad_ele, positive) ←
    replace np_sqrt (_positive_data c) solution pos strat r;
  '(_, negative) ← replace np_sqrt (_negative_data c) bad_ele neg strat r;
  best ← Py.getitem positive 0;
  Some (mkRacosCommon (_data c) positive negative (Some best)).



(** A pass of the loop of [opt] whose sample is not distinct. *)
Definition not_distinct (ev : iteration) : bool :=
  match fst (sampled ev) with
  | Some _ => is_False (snd (sampled ev))
  | None => false
  end.

(** How many of the passes drew a sample that is not distinct. *)
Fixpoint count_not_distinct (evs : list iteration) : Z :=
  match evs with
  | [] => 0
  | ev :: evs' =>
      (if not_distinct ev then 1 else 0) + count_not_distinct evs'
  end.

(** The longest run of consecutive passes whose sample is not distinct:
    [cur] is the length of the run that ends where [evs] starts. *)
Fixpoint longest_not_distinct_run (cur : Z) (evs : list iteration) : Z :=
  match evs with
  | [] => cur
  | ev :: evs' =>
      if not_distinct ev
      then Z.max cur (longest_not_distinct_run (cur + 1) evs')
      else Z.max cur (longest_not_distinct_run 0 evs')
  end.

(** A caller of the suggest/complete driver. *)
Inductive call :=
| CallSuggest (d : draw)
| CallComplete (solution : Solution) (res : result).

Fixpoint tune_run (np_sqrt : Q → Q) (p : Params) (st : tune_state)
    (calls : list call) : option tune_state :=
  match calls with
  | [] => Some st
  | CallSuggest d :: calls' =>
      tune_run np_sqrt p (fst (suggest p st d)) calls'
  | CallComplete solution res :: calls' =>
      '(st', _) ← complete np_sqrt p st solution res;
      tune_run np_sqrt p st' calls'
  end.

(** The driver as [SRacosTune.__init__] leaves it. *)
Definition tune_init : tune_state :=
  mkTuneState (mkRacosCommon [] [] [] None) 0 0 1 0.

(** Successive calls of [suggest] with no [complete] in between: the
    state they lead to and what each call returned. *)
Fixpoint suggest_all (p : Params) (st : tune_state) (ds : list draw)
    : tune_state * list suggestion :=
  match ds with
  | [] => (st, [])
  | d :: ds' =>
      let '(st1, r) := suggest p st d in
      let '(st2, rs) := suggest_all p st1 ds' in
      (st2, r :: rs)
  end.

(** ** Invariants of the drivers *)

(** The positive archive of a driver that has been initialized: not empty,
    sorted by value, with the best solution read at its index 0. *)
Definition positive_formed (c : RacosCommon) : Prop :=
  _positive_data c ≠ [] ∧
  sorted_by_value (_positive_data c) ∧
  _best_solution c = _positive_data c !! 0%nat.

(** [b] is at least as good as the best solution of [c]. *)
Definition no_worse_than_best (b : option Solution) (c : RacosCommon) : Prop :=
  ∃ b1 b0, b = Some b1 ∧ _best_solution c = Some b0 ∧
    (get_value b1 <= get_value b0)%Q.

(** How many of the passes evaluated their sample. *)
Definition count_evaluated (evs : list iteration) : Z :=
  Py.len evs - count_not_distinct evs.

(** ** Concrete inputs used by the examples *)

(** A one-dimensional solution at coordinate [v] with value [v]. *)
Definition sol (v : Q) : Solution := mkSolution [v] v.

(** A one-dimensional solution at coordinate [x] with value [v]. *)
Definition sol_at (x v : Q) : Solution := mkSolution [x] v.


Definition two_two_archives : RacosCommon :=
  mkRacosCommon [] [sol_at 0 1; sol_at 5 2] [sol_at 7 7; sol_at 9 9]
    (Some (sol_at 0 1)).

(** A run of [opt] with budget 10 and train size 2, hence 8 iterations. *)
Definition small_run : Params := mkParams 10 2 1 None 2.

Definition small_start : opt_state :=
  mkOptState (mkRacosCommon [] [sol 1] [sol 5] (Some (sol 1))) 0 0.

(** A pass whose sample is already in the archives, and a pass whose
    sample is new and evaluates to 3. *)
Definition repeated_pass : iteration :=
  mkIteration (Some (sol 1), Some false) 0 0 false false.

Definition fresh_pass : iteration :=
  mkIteration (Some (sol_at 3 0), Some true) 3 0 false false.

(** The loop of the small run after 99 repeated samples. *)
Definition after_99_repeats : opt_state :=
  mkOptState (opt_common small_start) 0 99.

(** 99 repeated samples, a fresh one, one more repeated sample. *)
Definition interrupted_repeats : list iteration :=
  replicate 99 repeated_pass ++ [fresh_pass; repeated_pass].

(** A suggest/complete run with [train_size = 4] and [server_num = 2]. *)
Definition tune_params : Params := mkParams 20 4 1 None 2.

(** A sampler's answer: an unevaluated solution at coordinate [x]. *)
Definition fresh (x : Q) : draw := (Some (sol_at x 0), Some true).

(** The calls that issue the four initialization trials, close the gate
    and report the first two results. *)
Definition first_two_reported : list call :=
  [CallSuggest (fresh 5); CallSuggest (fresh 7); CallSuggest (fresh 6);
   CallSuggest (fresh 9); CallSuggest (fresh 0);
   CallComplete (sol_at 5 0) (Finite 5); CallComplete (sol_at 7 0) (Finite 7)].

Definition staged_two : tune_state :=
  mkTuneState (mkRacosCommon [sol 5; sol 7] [sol 5] [sol 7] (Some (sol 5)))
    5 2 0 2.

(** After initialization, with both servers busy. *)
Definition at_capacity : tune_state :=
  mkTuneState (mkRacosCommon [sol 5; sol 7] [sol 5] [sol 7] (Some (sol 5)))
    5 4 1 2.

(** The same driver after a refused [suggest] and one reported result. *)
Definition one_reported : tune_state :=
  mkTuneState (mkRacosCommon [sol 5; sol 7] [sol 5] [sol 6] (Some (sol 5)))
    6 5 1 1.

(** All four initialization results are reported before the call of
    [suggest] that closes the gate. *)
Definition reported_before_gate_closes : list call :=
  [CallSuggest (fresh 5); CallSuggest (fresh 7); CallSuggest (fresh 6);
   CallSuggest (fresh 9);
   CallComplete (sol_at 5 0) (Finite 5); CallComplete (sol_at 7 0) (Finite 7);
   CallComplete (sol_at 6 0) (Finite 6); CallComplete (sol_at 9 0) (Finite 9);
   CallSuggest (fresh 0)].

Definition stuck : tune_state :=
  mkTuneState
    (mkRacosCommon [sol 5; sol 6; sol 7] [sol 5] [sol 6; sol 7] (Some (sol 5)))
    5 4 0 0.

(** The pass and the states of the example for the update of the positive
    archive under LM. *)
Definition better_pass : iteration :=
  mkIteration (Some (sol_at 1 0), Some true) 0 0 false false.

Definition two_two_start : opt_state := mkOptState two_two_archives 0 0.

Definition two_two_next : opt_state :=
  mkOptState
    (mkRacosCommon [] [sol_at 1 0; sol_at 0 1] [sol_at 7 7; sol_at 5 2]
       (Some (sol_at 1 0))) 1 0.

(** * Properties *)

(** ** Comparisons and Python list operations *)

Lemma Qlt_bool_iff (a b : Q) : Qlt_bool a b = true ↔ (a < b)%Q.
Proof.
  unfold Qlt_bool. rewrite negb_true_iff. split.
  - intros H. apply Qnot_le_lt. intros Hle. apply Qle_bool_iff in Hle. congruence.
  - intros H. destruct (Qle_bool b a) eqn:E; [|done].
    apply Qle_bool_iff in E. lra.
Qed.

Lemma Qlt_bool_false (a b : Q) : Qlt_bool a b = false ↔ (b <= a)%Q.
Proof.
  unfold Qlt_bool. rewrite negb_false_iff. apply Qle_bool_iff.
Qed.

Lemma Qle_bool_false (a b : Q) : Qle_bool a b = false ↔ (b < a)%Q.
Proof.
  split.
  - intros H. apply Qnot_le_lt. intros Hle. apply Qle_bool_iff in Hle. congruence.
  - intros H. destruct (Qle_bool a b) eqn:E; [|done].
    apply Qle_bool_iff in E. lra.
Qed.

Lemma getitem_nonneg {A} (l : list A) (i : Z) :
  0 ≤ i → Py.getitem l i = l !! Z.to_nat i.
Proof.
  intros Hi. unfold Py.getitem. destruct (Z.leb_spec 0 i); [done | lia].
Qed.

Lemma getitem_of_nat {A} (l : list A) (n : nat) :
  Py.getitem l (Z.of_nat n) = l !! n.
Proof. rewrite getitem_nonneg by lia. by rewrite Nat2Z.id. Qed.

Lemma getitem_in_range {A} (l : list A) (i : Z) :
  0 ≤ i < Py.len l → ∃ a, Py.getitem l i = Some a.
Proof.
  intros Hi. rewrite getitem_nonneg by lia.
  apply lookup_lt_is_Some_2. unfold Py.len in Hi. lia.
Qed.

Lemma getitem_Some_range {A} (l : list A) (i : Z) (a : A) :
  0 ≤ i → Py.getitem l i = Some a → i < Py.len l.
Proof.
  intros Hi. rewrite getitem_nonneg by lia. intros H.
  apply lookup_lt_Some in H. unfold Py.len. lia.
Qed.

Lemma setitem_in_range {A} (l : list A) (i : Z) (x : A) :
  0 ≤ i < Py.len l → Py.setitem l i x = Some (<[Z.to_nat i := x]> l).
Proof.
  intros Hi. unfold Py.setitem.
  destruct (Z.leb_spec 0 i); [|lia]. destruct (Z.ltb_spec i (Py.len l)); [done|lia].
Qed.

Lemma insert_at_len {A} (l : list A) (x : A) :
  Py.insert l (Py.len l) x = l ++ [x].
Proof.
  unfold Py.insert, Py.len. destruct (Z.leb_spec 0 (Z.of_nat (length l))); [|lia].
  rewrite Nat2Z.id, firstn_all, drop_all. done.
Qed.

Lemma pop_snoc {A} (l : list A) (x : A) : Py.pop (l ++ [x]) = Some (x, l).
Proof.
  unfold Py.pop. rewrite last_snoc. simpl. rewrite length_app. simpl.
  replace (length l + 1 - 1)%nat with (length l) by lia.
  by rewrite take_app_length.
Qed.

Lemma length_py_insert {A} (l : list A) (i : Z) (x : A) :
  length (Py.insert l i x) = S (length l).
Proof.
  unfold Py.insert. rewrite length_app. simpl. rewrite length_take, length_drop. lia.
Qed.

Lemma pop_nonempty {A} (l : list A) :
  l ≠ [] → ∃ e, last l = Some e ∧ Py.pop l = Some (e, take (length l - 1) l).
Proof.
  intros Hl. destruct (last l) as [e|] eqn:E.
  - exists e. split; [done|]. unfold Py.pop. by rewrite E.
  - apply last_None in E. done.
Qed.

(** ** Sortedness *)

Lemma sorted_by_value_le (l : list Solution) (i j : nat) a b :
  sorted_by_value l → (i ≤ j)%nat → l !! i = Some a → l !! j = Some b →
  (get_value a <= get_value b)%Q.
Proof.
  intros Hs Hij Ha. revert b. induction Hij as [|j Hij IH]; intros b Hb.
  - assert (a = b) by congruence. subst. lra.
  - destruct (lookup_lt_is_Some_2 l j) as [c Hc].
    { apply lookup_lt_Some in Hb. lia. }
    specialize (IH c Hc). specialize (Hs j c b Hc Hb). lra.
Qed.

Lemma is_sorted_sound (l : list Solution) :
  is_sorted l = true → sorted_by_value l.
Proof.
  induction l as [|a l IH]; intros H i x y Hx Hy; [done|].
  destruct l as [|b l]; [destruct i; done|].
  simpl in H. apply andb_true_iff in H as [Hab Hl].
  destruct i as [|i].
  - simpl in Hx, Hy. simplify_eq. by apply Qle_bool_iff.
  - apply (IH Hl i x y); done.
Qed.

Lemma sorted_is_sorted (l : list Solution) :
  sorted_by_value l → is_sorted l = true.
Proof.
  induction l as [|a l IH]; intros H; [done|].
  destruct l as [|b l]; [done|].
  cbn [is_sorted]. apply andb_true_iff. split.
  - apply Qle_bool_iff. by apply (H 0%nat).
  - apply IH. intros i x y Hx Hy. by apply (H (S i)).
Qed.

Lemma sorted_getitem_le (l : list Solution) (i j : Z) a b :
  sorted_by_value l → 0 ≤ i ≤ j →
  Py.getitem l i = Some a → Py.getitem l j = Some b →
  (get_value a <= get_value b)%Q.
Proof.
  intros Hs Hij. rewrite !getitem_nonneg by lia. intros Ha Hb.
  apply (sorted_by_value_le l (Z.to_nat i) (Z.to_nat j)); [done|lia|done|done].
Qed.

(** ** Binary search *)

(** What the search establishes on [begin..end], given that everything
    left of [begin] is at most [x] and everything right of [end] is at
    least [x]: an index that splits the whole list around [x]. *)
Lemma binary_search_range (depth : nat) (iset : list Solution) (x : Solution) :
  sorted_by_value iset →
  ∀ b e : Z,
  0 ≤ b ≤ e → e < Py.len iset → e - b < Z.of_nat depth →
  (∀ i a, 0 ≤ i < b → Py.getitem iset i = Some a →
     (get_value a <= get_value x)%Q) →
  (∀ i a, e < i → Py.getitem iset i = Some a →
     (get_value x <= get_value a)%Q) →
  ∃ k, binary_search depth iset x b e = Some k ∧ b ≤ k ≤ e + 1 ∧
    (∀ i a, 0 ≤ i < k → Py.getitem iset i = Some a →
       (get_value a <= get_value x)%Q) ∧
    (∀ i a, k ≤ i → Py.getitem iset i = Some a →
       (get_value x <= get_value a)%Q).
Proof.
  intros Hs. induction depth as [|depth IH]; intros b e Hbe He Hd Hlo Hhi; [lia|].
  destruct (getitem_in_range iset b) as [vb Hb]; [lia|].
  destruct (getitem_in_range iset e) as [ve He']; [lia|].
  cbn [binary_search]. rewrite Hb. cbn [mbind option_bind].
  destruct (Qle_bool (get_value x) (get_value vb)) eqn:E1.
  { apply Qle_bool_iff in E1. exists b. split; [done|]. split; [lia|]. split; [done|].
    intros i a Hi Ha. pose proof (sorted_getitem_le iset b i vb a Hs ltac:(lia) Hb Ha). lra. }
  apply Qle_bool_false in E1.
  rewrite He'. cbn [mbind option_bind].
  destruct (Qle_bool (get_value ve) (get_value x)) eqn:E2.
  { apply Qle_bool_iff in E2. exists (e + 1). split; [done|]. split; [lia|]. split.
    - intros i a Hi Ha.
      pose proof (sorted_getitem_le iset i e a ve Hs ltac:(lia) Ha He'). lra.
    - intros i a Hi Ha. apply (Hhi i a); [lia|done]. }
  apply Qle_bool_false in E2.
  destruct (Z.eqb_spec e (b + 1)) as [Heq|Hne].
  { exists e. split; [done|]. split; [lia|]. split.
    - intros i a Hi Ha.
      pose proof (sorted_getitem_le iset i b a vb Hs ltac:(lia) Ha Hb). lra.
    - intros i a Hi Ha.
      pose proof (sorted_getitem_le iset e i ve a Hs ltac:(lia) He' Ha). lra. }
  assert (b < e).
  { destruct (Z.eq_dec b e) as [->|]; [|lia].
    assert (vb = ve) by congruence. subst. lra. }
  set (mid := b + (e - b) / 2).
  assert (b < mid < e) as Hmid.
  { unfold mid. pose proof (Z.div_lt_upper_bound (e - b) 2 (e - b)).
    assert (1 ≤ (e - b) / 2) by (apply Z.div_le_lower_bound; lia). lia. }
  destruct (getitem_in_range iset mid) as [vm Hm]; [lia|].
  rewrite Hm. cbn [mbind option_bind].
  destruct (Qle_bool (get_value x) (get_value vm)) eqn:E3.
  - apply Qle_bool_iff in E3.
    destruct (IH b mid) as (k & Hk & Hr & H1 & H2); [lia|lia|lia|done| |].
    { intros i a Hi Ha.
      pose proof (sorted_getitem_le iset mid i vm a Hs ltac:(lia) Hm Ha). lra. }
    exists k. repeat split; [done|lia|lia|done|done].
  - apply Qle_bool_false in E3.
    destruct (IH mid e) as (k & Hk & Hr & H1 & H2); [lia|lia|lia| |done|].
    { intros i a Hi Ha.
      pose proof (sorted_getitem_le iset i mid a vm Hs ltac:(lia) Ha Hm). lra. }
    exists k. repeat split; [done|lia|lia|done|done].
Qed.

(** More frames than needed do not change the answer. *)
Lemma binary_search_depth_mono (d d' : nat) iset x b e k :
  (d ≤ d')%nat → binary_search d iset x b e = Some k →
  binary_search d' iset x b e = Some k.
Proof.
  revert d' b e. induction d as [|d IH]; intros d' b e Hd H; [done|].
  destruct d' as [|d']; [lia|].
  cbn [binary_search] in *.
  destruct (Py.getitem iset b) as [vb|]; [|done]. cbn [mbind option_bind] in *.
  destruct (Qle_bool _ _); [done|].
  destruct (Py.getitem iset e) as [ve|]; [|done]. cbn [mbind option_bind] in *.
  destruct (Qle_bool _ _); [done|].
  destruct (e =? b + 1); [done|].
  destruct (Py.getitem iset _) as [vm|]; [|done]. cbn [mbind option_bind] in *.
  destruct (Qle_bool _ _); apply IH; (lia || done).
Qed.

(** The call made by [strategy_wr] returns, within its budget of frames. *)
Lemma binary_search_depth_enough (iset : list Solution) (x : Solution) :
  sorted_by_value iset → iset ≠ [] →
  ∃ k, binary_search (search_depth iset) iset x 0 (Py.len iset - 1) = Some k ∧
    0 ≤ k ≤ Py.len iset ∧
    (∀ i a, 0 ≤ i < k → Py.getitem iset i = Some a →
       (get_value a <= get_value x)%Q) ∧
    (∀ i a, k ≤ i → Py.getitem iset i = Some a →
       (get_value x <= get_value a)%Q).
Proof.
  intros Hs Hne.
  assert (0 < Py.len iset) by (unfold Py.len; destruct iset; [done|simpl; lia]).
  destruct (binary_search_range (search_depth iset) iset x Hs 0 (Py.len iset - 1))
    as (k & Hk & Hr & H1 & H2).
  - lia.
  - lia.
  - unfold search_depth, Py.len. lia.
  - intros; lia.
  - intros i a Hi Ha. apply getitem_Some_range in Ha; lia.
  - exists k. repeat split; [done|lia|lia|done|done].
Qed.





(** ** Worst-replace on the positive archive *)

Lemma sorted_by_value_cons (a : Solution) (l : list Solution) :
  sorted_by_value (a :: l) ↔
  (∀ b, l !! 0%nat = Some b → (get_value a <= get_value b)%Q) ∧ sorted_by_value l.
Proof.
  split.
  - intros H. split.
    + intros b Hb. by apply (H 0%nat a b).
    + intros i x y Hx Hy. by apply (H (S i) x y).
  - intros [Hh Ht] i x y Hx Hy. destruct i as [|i].
    + simpl in Hx. simplify_eq. by apply Hh.
    + by apply (Ht i x y).
Qed.

Lemma sorted_by_value_insert (l : list Solution) (x : Solution) (k : nat) :
  sorted_by_value l → (k ≤ length l)%nat →
  (∀ (i : nat) a, (i < k)%nat → l !! i = Some a → (get_value a <= get_value x)%Q) →
  (∀ (i : nat) a, (k ≤ i)%nat → l !! i = Some a → (get_value x <= get_value a)%Q) →
  sorted_by_value (take k l ++ x :: drop k l).
Proof.
  revert l. induction k as [|k IH]; intros l Hs Hk Hlo Hhi.
  - rewrite take_0, drop_0. simpl. apply sorted_by_value_cons. split; [|done].
    intros b Hb. by apply (Hhi 0%nat b).
  - destruct l as [|a l]; [simpl in Hk; lia|].
    apply sorted_by_value_cons in Hs as [Hh Ht].
    cbn [take drop app]. apply sorted_by_value_cons. split.
    + intros b Hb. destruct k as [|k].
      * rewrite take_0 in Hb. simpl in Hb. simplify_eq.
        apply (Hlo 0%nat a); [lia|done].
      * destruct l as [|c l]; [simpl in Hk; lia|].
        simpl in Hb. simplify_eq. by apply Hh.
    + apply IH; [done|simpl in Hk; lia| |].
      * intros i b Hi Hb. apply (Hlo (S i) b); [lia|done].
      * intros i b Hi Hb. apply (Hhi (S i) b); [lia|done].
Qed.

Lemma sorted_by_value_take (l : list Solution) (n : nat) :
  sorted_by_value l → sorted_by_value (take n l).
Proof.
  intros Hs i a b Ha Hb.
  apply lookup_take_Some in Ha as [Ha _]. apply lookup_take_Some in Hb as [Hb _].
  by apply (Hs i a b).
Qed.

(** The positive branch of [strategy_wr] on a sorted, non-empty archive:
    it returns, and what it leaves behind is the sorted insertion without
    its last element. *)
Lemma strategy_wr_pos_sorted (iset : list Solution) (x : Solution) :
  sorted_by_value iset → iset ≠ [] →
  ∃ worst_ele iset',
    strategy_wr iset x pos = Some (worst_ele, iset') ∧
    length iset' = length iset ∧ sorted_by_value iset' ∧
    last (iset' ++ [worst_ele]) = Some worst_ele ∧
    (∀ a, a ∈ iset' ++ [worst_ele] ↔ a ∈ x :: iset).
Proof.
  intros Hs Hne.
  destruct (binary_search_depth_enough iset x Hs Hne) as (k & Hk & Hr & H1 & H2).
  unfold strategy_wr. rewrite Hk. cbn [mbind option_bind].
  set (n := Z.to_nat k).
  assert (Py.insert iset k x = take n iset ++ x :: drop n iset) as Hins.
  { unfold Py.insert. destruct (Z.leb_spec 0 k); [done|lia]. }
  rewrite Hins.
  assert (n ≤ length iset)%nat as Hn by (unfold Py.len in Hr; lia).
  assert (sorted_by_value (take n iset ++ x :: drop n iset)) as Hsorted.
  { apply sorted_by_value_insert; [done|done| |].
    - intros i a Hi Ha. apply (H1 (Z.of_nat i)); [lia|]. by rewrite getitem_of_nat.
    - intros i a Hi Ha. apply (H2 (Z.of_nat i)); [lia|]. by rewrite getitem_of_nat. }
  set (l := take n iset ++ x :: drop n iset) in *.
  assert (length l = S (length iset)) as Hlen.
  { unfold l. rewrite length_app. simpl. rewrite length_take, length_drop. lia. }
  destruct (pop_nonempty l) as (e & He & Hpop).
  { intros Hnil. rewrite Hnil in Hlen. done. }
  rewrite Hpop. exists e, (take (length l - 1) l).
  assert (l = take (length l - 1) l ++ [e]) as Hsplit.
  { rewrite last_lookup in He.
    replace (Init.Nat.pred (length l)) with (length l - 1)%nat in He by lia.
    rewrite <- (take_S_r _ _ _ He).
    replace (S (length l - 1)) with (length l) by lia. by rewrite firstn_all. }
  split; [done|]. split.
  { rewrite length_take. lia. }
  split; [by apply sorted_by_value_take|]. split.
  { by rewrite last_snoc. }
  intros a. rewrite <- Hsplit. unfold l.
  assert (a ∈ iset ↔ a ∈ take n iset ∨ a ∈ drop n iset) as Hiset.
  { by rewrite <- elem_of_app, take_drop. }
  rewrite elem_of_app, !elem_of_cons. tauto.
Qed.

(** C3.  Take a positive archive of [train_size > 0] solutions, sorted
    ascending by value.  The replacement step on it (the worst-replace
    insertion of an evaluated solution, then the best solution re-read at
    index 0) returns, and afterwards the archive again holds exactly
    [train_size] solutions, is sorted ascending by value, and the best
    solution is its element at index 0, whose value is at most every
    value in the archive.  This is the positive archive and the best
    solution of the state [update_archives] produces, whatever strategy
    updates the negative archive. *)
Theorem positive_archive_invariant (np_sqrt : Q → Q) (p : Params)
    (c : RacosCommon) (x : Solution) (strat : strategy) (r : Z) :
  Py.len (_positive_data c) = get_train_size p →
  0 < get_train_size p →
  sorted_by_value (_positive_data c) →
  ∃ bad_ele positive best,
    replace np_sqrt (_positive_data c) x pos WR r = Some (bad_ele, positive) ∧
    Py.getitem positive 0 = Some best ∧
    Py.len positive = get_train_size p ∧
    sorted_by_value positive ∧
    (∀ a, a ∈ positive → (get_value best <= get_value a)%Q) ∧
    (∀ c', update_archives np_sqrt c x strat r = Some c' →
       _positive_data c' = positive ∧ _best_solution c' = Some best).
Proof.
  intros Hlen Hpos Hs.
  assert (_positive_data c ≠ []) as Hne.
  { intros Hnil. rewrite Hnil in Hlen. unfold Py.len in Hlen. simpl in Hlen. lia. }
  destruct (strategy_wr_pos_sorted (_positive_data c) x Hs Hne)
    as (bad & positive & Hwr & Hl & Hsorted & _ & _).
  assert (Py.len positive = get_train_size p) as Hlen'.
  { unfold Py.len in *. lia. }
  destruct (getitem_in_range positive 0) as [best Hbest]; [lia|].
  exists bad, positive, best. cbn [replace]. split; [done|]. split; [done|].
  split; [done|]. split; [done|]. split.
  - intros a Ha. apply list_elem_of_lookup_1 in Ha as [i Hi].
    rewrite getitem_nonneg in Hbest by lia.
    apply (sorted_by_value_le positive 0 i best a); [done|lia|done|done].
  - intros c' Hc'. unfold update_archives in Hc'. cbn [replace] in Hc'.
    rewrite Hwr in Hc'. cbn [mbind option_bind] in Hc'.
    destruct (replace np_sqrt (_negative_data c) bad neg strat r) as [[? negative]|];
      [|done].
    cbn [mbind option_bind] in Hc'. rewrite Hbest in Hc'.
    cbn [mbind option_bind] in Hc'. by simplify_eq.
Qed.

Lemma positive_archive_invariant_witness :
  ∃ bad_ele positive best,
    replace sqrt_exact [sol 1; sol 3] (sol 2) pos WR 0
      = Some (bad_ele, positive) ∧
    Py.getitem positive 0 = Some best ∧
    Py.len positive = 2 ∧
    sorted_by_value positive ∧
    (∀ a, a ∈ positive → (get_value best <= get_value a)%Q) ∧
    (∀ c', update_archives sqrt_exact
             (mkRacosCommon [] [sol 1; sol 3] [sol 7; sol 9] (Some (sol 1)))
             (sol 2) LM 0 = Some c' →
       _positive_data c' = positive ∧ _best_solution c' = Some best).
Proof.
  apply (positive_archive_invariant sqrt_exact (mkParams 10 2 2 None 1)
           (mkRacosCommon [] [sol 1; sol 3] [sol 7; sol 9] (Some (sol 1)))
           (sol 2) LM 0).
  - reflexivity.
  - reflexivity.
  - apply is_sorted_sound. reflexivity.
Defined.

(** An empty positive archive has no element to compare with: the call
    raises (IndexError in [binary_search]). *)
Lemma strategy_wr_pos_empty (x : Solution) : strategy_wr [] x pos = None.
Proof. reflexivity. Qed.

(** C9.  On a sorted, non-empty positive archive, worst-replace of a
    solution [x] whose value is strictly greater than that of the current
    worst (last) element leaves the archive as it was (the same list, hence
    the same set of solutions) and returns [x] itself as the evicted
    element. *)
Theorem strategy_wr_pos_worse_unchanged (iset : list Solution) (x w : Solution) :
  sorted_by_value iset →
  last iset = Some w →
  (get_value w < get_value x)%Q →
  ∃ iset', strategy_wr iset x pos = Some (x, iset') ∧
    iset' = iset ∧ (∀ a, a ∈ iset' ↔ a ∈ iset).
Proof.
  intros Hs Hlast Hlt.
  assert (iset ≠ []) as Hne by (intros ->; done).
  destruct (binary_search_depth_enough iset x Hs Hne) as (k & Hk & Hr & _ & H2).
  assert (Py.getitem iset (Py.len iset - 1) = Some w) as Hw.
  { assert (0 < Py.len iset) by (unfold Py.len; destruct iset; [done|simpl; lia]).
    rewrite getitem_nonneg by lia. rewrite last_lookup in Hlast.
    rewrite <- Hlast. f_equal. unfold Py.len. lia. }
  assert (k = Py.len iset) as ->.
  { destruct (Z.eq_dec k (Py.len iset)); [done|].
    specialize (H2 (Py.len iset - 1) w ltac:(lia) Hw). lra. }
  exists iset. split; [|done].
  unfold strategy_wr. rewrite Hk. cbn [mbind option_bind].
  by rewrite insert_at_len, pop_snoc.
Qed.

Lemma strategy_wr_pos_worse_unchanged_witness :
  ∃ iset', strategy_wr [sol 1; sol 3] (sol 4) pos = Some (sol 4, iset') ∧
    iset' = [sol 1; sol 3] ∧ (∀ a, a ∈ iset' ↔ a ∈ [sol 1; sol 3]).
Proof.
  apply (strategy_wr_pos_worse_unchanged [sol 1; sol 3] (sol 4) (sol 3)).
  - apply is_sorted_sound. reflexivity.
  - reflexivity.
  - reflexivity.
Defined.

(** ** Worst-replace on the negative archive *)

Lemma max_value_is_Some (l : list Solution) : l ≠ [] → ∃ m, max_value l = Some m.
Proof.
  destruct l as [|a l]; [done|]. intros _. simpl.
  destruct (max_value l); eauto.
Qed.

Lemma max_value_upper (l : list Solution) (m : Q) :
  max_value l = Some m → ∀ a, a ∈ l → (get_value a <= m)%Q.
Proof.
  revert m. induction l as [|b l IH]; intros m Hm a Ha; [by apply elem_of_nil in Ha|].
  simpl in Hm. apply elem_of_cons in Ha.
  destruct (max_value l) as [m'|] eqn:E.
  - specialize (IH m' eq_refl).
    destruct (Qle_bool m' (get_value b)) eqn:E'; simplify_eq.
    + apply Qle_bool_iff in E'. destruct Ha as [->|Ha]; [lra|].
      specialize (IH a Ha). lra.
    + apply Qle_bool_false in E'. destruct Ha as [->|Ha]; [lra|]. by apply IH.
  - simplify_eq. destruct Ha as [->|Ha]; [lra|].
    destruct l; [by apply elem_of_nil in Ha|]. simpl in E.
    destruct (max_value l); done.
Qed.

Lemma max_value_attained (l : list Solution) (m : Q) :
  max_value l = Some m → ∃ a, a ∈ l ∧ get_value a = m.
Proof.
  revert m. induction l as [|b l IH]; intros m Hm; [done|].
  simpl in Hm. destruct (max_value l) as [m'|] eqn:E.
  - destruct (Qle_bool m' (get_value b)); simplify_eq.
    + exists b. split; [apply elem_of_cons; by left|done].
    + destruct (IH m eq_refl) as (a & Ha & Hv).
      exists a. split; [apply elem_of_cons; by right|done].
  - simplify_eq. exists b. split; [apply elem_of_cons; by left|done].
Qed.

Lemma find_maximum_from_max (pre rest : list Solution) (maxi : Solution)
    (max_index : Z) (e : Solution) (k : Z) :
  0 ≤ max_index < Py.len pre →
  Py.getitem (pre ++ rest) max_index = Some maxi →
  (∀ a, a ∈ pre → (get_value a <= get_value maxi)%Q) →
  find_maximum_from rest (Py.len pre) maxi max_index = (e, k) →
  0 ≤ k < Py.len (pre ++ rest) ∧ Py.getitem (pre ++ rest) k = Some e ∧
  (∀ a, a ∈ pre ++ rest → (get_value a <= get_value e)%Q).
Proof.
  revert pre maxi max_index.
  induction rest as [|s rest IH]; intros pre maxi max_index Hi Hget Hmax Hf.
  - simpl in Hf. simplify_eq. rewrite app_nil_r in *. done.
  - cbn [find_maximum_from] in Hf.
    assert (Py.len (pre ++ [s]) = Py.len pre + 1) as Hlen.
    { unfold Py.len. rewrite length_app. simpl. lia. }
    rewrite <- Hlen in Hf.
    replace (pre ++ s :: rest) with ((pre ++ [s]) ++ rest) in *
      by (by rewrite <- app_assoc).
    destruct (Qlt_bool (get_value maxi) (get_value s)) eqn:E.
    + apply Qlt_bool_iff in E.
      apply (IH (pre ++ [s]) s (Py.len pre)); [lia| | |done].
      * rewrite getitem_nonneg by (unfold Py.len; lia).
        unfold Py.len. rewrite Nat2Z.id.
        rewrite lookup_app_l by (rewrite length_app; simpl; lia).
        by rewrite lookup_app_r, Nat.sub_diag.
      * intros a Ha. apply elem_of_app in Ha as [Ha|Ha].
        -- specialize (Hmax a Ha). lra.
        -- apply list_elem_of_singleton in Ha. subst. lra.
    + apply Qlt_bool_false in E.
      apply (IH (pre ++ [s]) maxi max_index); [lia|done| |done].
      intros a Ha. apply elem_of_app in Ha as [Ha|Ha].
      * by apply Hmax.
      * apply list_elem_of_singleton in Ha. by subst.
Qed.

Lemma find_maximum_max (iset : list Solution) :
  iset ≠ [] →
  ∃ worst_ele worst_index,
    find_maximum iset = Some (worst_ele, worst_index) ∧
    0 ≤ worst_index < Py.len iset ∧
    Py.getitem iset worst_index = Some worst_ele ∧
    (∀ a, a ∈ iset → (get_value a <= get_value worst_ele)%Q).
Proof.
  destruct iset as [|s rest]; [done|]. intros _. cbn [find_maximum].
  destruct (find_maximum_from rest 1 s 0) as [e k] eqn:E.
  exists e, k. split; [done|].
  apply (find_maximum_from_max [s] rest s 0); [unfold Py.len; simpl; lia|done| |done].
  intros a Ha. apply list_elem_of_singleton in Ha. subst. lra.
Qed.

(** C8.  Worst-replace on a non-empty negative archive.  [find_maximum]
    yields an element [worst_ele] of maximum value and its index.  If that
    maximum strictly exceeds the value of the new solution [x], then [x]
    is stored at that index and [worst_ele] is returned; otherwise the
    archive is left as it is and [x] itself is returned.  Either way the
    maximum value of the archive after the call is at most the one
    before. *)
Theorem strategy_wr_neg_replaces_maximum (iset : list Solution) (x : Solution) :
  iset ≠ [] →
  ∃ worst_ele worst_index,
    find_maximum iset = Some (worst_ele, worst_index) ∧
    Py.getitem iset worst_index = Some worst_ele ∧
    (∀ a, a ∈ iset → (get_value a <= get_value worst_ele)%Q) ∧
    ((get_value x < get_value worst_ele)%Q →
       strategy_wr iset x neg
         = Some (worst_ele, <[Z.to_nat worst_index := x]> iset) ∧
       <[Z.to_nat worst_index := x]> iset !! Z.to_nat worst_index = Some x) ∧
    (¬ (get_value x < get_value worst_ele)%Q →
       strategy_wr iset x neg = Some (x, iset)) ∧
    ∃ ret iset' m m',
      strategy_wr iset x neg = Some (ret, iset') ∧
      max_value iset = Some m ∧ max_value iset' = Some m' ∧ (m' <= m)%Q.
Proof.
  intros Hne.
  destruct (find_maximum_max iset Hne) as (worst & idx & Hfind & Hidx & Hget & Hmax).
  exists worst, idx. split; [done|]. split; [done|]. split; [done|].
  assert ((get_value x < get_value worst)%Q →
          strategy_wr iset x neg = Some (worst, <[Z.to_nat idx := x]> iset)) as Hrep.
  { intros Hlt. unfold strategy_wr. rewrite Hfind. cbn [mbind option_bind].
    apply Qlt_bool_iff in Hlt. rewrite Hlt.
    rewrite setitem_in_range by done. done. }
  assert (¬ (get_value x < get_value worst)%Q →
          strategy_wr iset x neg = Some (x, iset)) as Hkeep.
  { intros Hnlt. unfold strategy_wr. rewrite Hfind. cbn [mbind option_bind].
    destruct (Qlt_bool (get_value x) (get_value worst)) eqn:E; [|done].
    apply Qlt_bool_iff in E. done. }
  split.
  { intros Hlt. split; [by apply Hrep|].
    apply list_lookup_insert_eq. unfold Py.len in Hidx. lia. }
  split; [done|].
  destruct (max_value_is_Some iset Hne) as [m Hm].
  destruct (Qlt_le_dec (get_value x) (get_value worst)) as [Hlt|Hle].
  - assert (<[Z.to_nat idx := x]> iset ≠ []) as Hne'.
    { intros Hnil. apply (f_equal length) in Hnil. rewrite length_insert in Hnil.
      destruct iset; done. }
    destruct (max_value_is_Some _ Hne') as [m' Hm'].
    exists worst, (<[Z.to_nat idx := x]> iset), m, m'.
    split; [by apply Hrep|]. split; [done|]. split; [done|].
    destruct (max_value_attained _ _ Hm') as (a & Ha & <-).
    apply list_elem_of_lookup_1 in Ha as [j Hj].
    apply list_lookup_insert_Some in Hj as [(_ & <- & _)|(_ & Hj)].
    + assert (worst ∈ iset) as Hin.
      { rewrite getitem_nonneg in Hget by lia. by apply list_elem_of_lookup_2 in Hget. }
      pose proof (max_value_upper iset m Hm worst Hin). lra.
    + apply (max_value_upper iset m Hm). by apply list_elem_of_lookup_2 in Hj.
  - exists x, iset, m, m. split; [apply Hkeep; lra|]. split; [done|]. split; [done|lra].
Qed.

Lemma strategy_wr_neg_replaces_maximum_witness :
  ∃ worst_ele worst_index,
    find_maximum [sol 7; sol 9; sol 8] = Some (worst_ele, worst_index) ∧
    Py.getitem [sol 7; sol 9; sol 8] worst_index = Some worst_ele ∧
    (∀ a, a ∈ [sol 7; sol 9; sol 8] → (get_value a <= get_value worst_ele)%Q) ∧
    ((get_value (sol 5) < get_value worst_ele)%Q →
       strategy_wr [sol 7; sol 9; sol 8] (sol 5) neg
         = Some (worst_ele, <[Z.to_nat worst_index := sol 5]> [sol 7; sol 9; sol 8]) ∧
       <[Z.to_nat worst_index := sol 5]> [sol 7; sol 9; sol 8]
         !! Z.to_nat worst_index = Some (sol 5)) ∧
    (¬ (get_value (sol 5) < get_value worst_ele)%Q →
       strategy_wr [sol 7; sol 9; sol 8] (sol 5) neg
         = Some (sol 5, [sol 7; sol 9; sol 8])) ∧
    ∃ ret iset' m m',
      strategy_wr [sol 7; sol 9; sol 8] (sol 5) neg = Some (ret, iset') ∧
      max_value [sol 7; sol 9; sol 8] = Some m ∧ max_value iset' = Some m' ∧
      (m' <= m)%Q.
Proof.
  apply (strategy_wr_neg_replaces_maximum [sol 7; sol 9; sol 8] (sol 5)).
  discriminate.
Defined.

(** The two branches of the negative worst-replace, run. *)
Example strategy_wr_neg_run :
  strategy_wr [sol 7; sol 9; sol 8] (sol 5) neg
    = Some (sol 9, [sol 7; sol 5; sol 8]) ∧
  strategy_wr [sol 7; sol 9; sol 8] (sol 9) neg
    = Some (sol 9, [sol 7; sol 9; sol 8]) ∧
  strategy_wr [] (sol 5) neg = None.
Proof. repeat split; reflexivity. Qed.

(** ** Largest-margin replacement *)










(** ** The positive archive is always updated by worst-replace *)

(** C7 (as the code has it).  In a pass of the loop of [opt] that keeps
    going after an evaluation, and in [update_classifier], the positive
    archive is updated by worst-replace whatever strategy is configured;
    the configured strategy is applied to the update of the negative
    archive only, with the solution the positive archive evicted. *)
Theorem positive_update_is_worst_replace (np_sqrt : Q → Q) (p : Params)
    (strat : strategy) (st st' : opt_state) (ev : iteration) (s : Solution)
    (c c' : RacosCommon) (x : Solution) (r : Z) (best : option Solution) :
  (fst (sampled ev) = Some s → is_False (snd (sampled ev)) = false →
   opt_body np_sqrt p strat st ev = Some (Continue st') →
   ∃ bad_ele ret,
     strategy_wr (_positive_data (opt_common st)) (set_value s (evaluated ev)) pos
       = Some (bad_ele, _positive_data (opt_common st')) ∧
     replace np_sqrt (_negative_data (opt_common st)) bad_ele neg strat
       (rand_index ev) = Some (ret, _negative_data (opt_common st'))) ∧
  (update_classifier np_sqrt c x strat r = Some (c', best) →
   ∃ bad_ele ret,
     strategy_wr (_positive_data c) x pos = Some (bad_ele, _positive_data c') ∧
     replace np_sqrt (_negative_data c) bad_ele neg strat r
       = Some (ret, _negative_data c')).
Proof.
  assert (∀ c0 x0 r0 c1, update_archives np_sqrt c0 x0 strat r0 = Some c1 →
            ∃ bad_ele ret,
              strategy_wr (_positive_data c0) x0 pos
                = Some (bad_ele, _positive_data c1) ∧
              replace np_sqrt (_negative_data c0) bad_ele neg strat r0
                = Some (ret, _negative_data c1)) as Hupd.
  { intros c0 x0 r0 c1 H. unfold update_archives in H. cbn [replace] in H.
    destruct (strategy_wr (_positive_data c0) x0 pos) as [[bad positive]|]; [|done].
    cbn [mbind option_bind] in H.
    destruct (replace np_sqrt (_negative_data c0) bad neg strat r0)
      as [[ret negative]|] eqn:E; [|done].
    cbn [mbind option_bind] in H.
    destruct (Py.getitem positive 0); [|done]. cbn [mbind option_bind] in H.
    simplify_eq. simpl. by exists bad, ret. }
  split.
  - intros Hs Hflag H. unfold opt_body in H. rewrite Hs, Hflag in H.
    destruct (update_archives np_sqrt (opt_common st) (set_value s (evaluated ev))
                strat (rand_index ev)) as [c1|] eqn:E; [|done].
    cbn [mbind option_bind] in H.
    destruct (_best_solution c1) as [b1|]; [|done]. cbn [mbind option_bind] in H.
    destruct (time_budget_out ev); [done|].
    destruct (terminal_reached p b1); [done|].
    destruct (criterion ev); [done|].
    simplify_eq. cbn [opt_common]. by apply Hupd.
  - intros H. unfold update_classifier in H.
    destruct (update_archives np_sqrt c x strat r) as [c1|] eqn:E; [|done].
    cbn [mbind option_bind] in H. simplify_eq. by apply Hupd.
Qed.

(** C7, counterexample.  With the LM strategy configured and a new
    solution better than the whole archive, the code inserts it at the
    front of the positive archive (worst-replace); LM applied to the
    positive archive would have overwritten the member farthest from the
    best one instead. *)
Lemma positive_update_ignores_lm :
  update_archives sqrt_exact two_two_archives (sol_at 1 0) LM 0
    = Some (mkRacosCommon [] [sol_at 1 0; sol_at 0 1] [sol_at 7 7; sol_at 5 2]
              (Some (sol_at 1 0))) ∧
  update_archives_same_strategy sqrt_exact two_two_archives (sol_at 1 0) LM 0
    = Some (mkRacosCommon [] [sol_at 0 1; sol_at 1 0] [sol_at 7 7; sol_at 5 2]
              (Some (sol_at 0 1))).
Proof. split; reflexivity. Qed.

Lemma positive_update_is_worst_replace_witness :
  ∃ bad_ele ret,
    strategy_wr (_positive_data (opt_common two_two_start))
      (set_value (sol_at 1 0) (evaluated better_pass)) pos
      = Some (bad_ele, _positive_data (opt_common two_two_next)) ∧
    replace sqrt_exact (_negative_data (opt_common two_two_start)) bad_ele neg LM
      (rand_index better_pass)
      = Some (ret, _negative_data (opt_common two_two_next)).
Proof.
  apply (proj1 (positive_update_is_worst_replace sqrt_exact small_run LM
                  two_two_start two_two_next better_pass (sol_at 1 0)
                  two_two_archives two_two_archives (sol_at 1 0) 0 None));
    reflexivity.
Defined.

(** ** The counter of samples that are not distinct *)

Lemma opt_loop_app (np_sqrt : Q → Q) (p : Params) (strat : strategy)
    (evs evs' : list iteration) (st : opt_state) :
  opt_loop np_sqrt p strat st (evs ++ evs') =
  match opt_loop np_sqrt p strat st evs with
  | Some (Running st') => opt_loop np_sqrt p strat st' evs'
  | other => other
  end.
Proof.
  revert st. induction evs as [|ev evs IH]; intros st.
  - cbn [app opt_loop].
    destruct (opt_i st <? get_budget p - get_train_size p) eqn:E; [done|].
    destruct evs'; cbn [opt_loop]; by rewrite E.
  - cbn [app opt_loop].
    destruct (opt_i st <? get_budget p - get_train_size p); [|done].
    destruct (opt_body np_sqrt p strat st ev) as [[st1|e best]|]; cbn; [|done|done].
    apply IH.
Qed.

Lemma opt_body_not_distinct (np_sqrt : Q → Q) (p : Params) (strat : strategy)
    (st : opt_state) (ev : iteration) :
  not_distinct ev = true →
  opt_body np_sqrt p strat st ev =
  Some (if max_distinct_repeat_times <=? current_not_distinct_times st + 1
        then Return NotDistinctTooMuch (_best_solution (opt_common st))
        else Continue (mkOptState (opt_common st) (opt_i st)
                         (current_not_distinct_times st + 1))).
Proof.
  unfold not_distinct, opt_body. intros H.
  destruct (fst (sampled ev)); [|done]. rewrite H.
  by destruct (max_distinct_repeat_times <=? _).
Qed.

Lemma opt_body_distinct (np_sqrt : Q → Q) (p : Params) (strat : strategy)
    (st : opt_state) (ev : iteration) :
  not_distinct ev = false →
  match opt_body np_sqrt p strat st ev with
  | Some (Continue st') =>
      current_not_distinct_times st' = current_not_distinct_times st
  | Some (Return e _) => e ≠ NotDistinctTooMuch
  | None => True
  end.
Proof.
  unfold not_distinct, opt_body. intros H.
  destruct (fst (sampled ev)); [|done]. rewrite H.
  destruct (update_archives _ _ _ _ _) as [c1|]; [|done]. cbn [mbind option_bind].
  destruct (_best_solution c1) as [b1|]; [|done]. cbn [mbind option_bind].
  destruct (time_budget_out ev); [done|].
  destruct (terminal_reached p b1); [done|].
  destruct (criterion ev); done.
Qed.

(** While the loop keeps running, the counter holds the number of all
    samples so far that were not distinct, and has not reached 100. *)
Lemma opt_loop_running_counter (np_sqrt : Q → Q) (p : Params) (strat : strategy)
    (evs : list iteration) (st st' : opt_state) :
  opt_loop np_sqrt p strat st evs = Some (Running st') →
  current_not_distinct_times st' =
    current_not_distinct_times st + count_not_distinct evs ∧
  opt_i st' < get_budget p - get_train_size p ∧
  (current_not_distinct_times st < max_distinct_repeat_times →
   current_not_distinct_times st' < max_distinct_repeat_times).
Proof.
  revert st. induction evs as [|ev evs IH]; intros st H.
  - cbn [opt_loop] in H.
    destruct (Z.ltb_spec (opt_i st) (get_budget p - get_train_size p)); [|done].
    simplify_eq. cbn [count_not_distinct]. split; [lia|]. split; [lia|done].
  - cbn [opt_loop] in H.
    destruct (opt_i st <? get_budget p - get_train_size p); [|done].
    cbn [count_not_distinct].
    destruct (not_distinct ev) eqn:E.
    + rewrite (opt_body_not_distinct _ _ _ _ _ E) in H. cbn in H.
      destruct (Z.leb_spec max_distinct_repeat_times
                  (current_not_distinct_times st + 1)); [done|].
      destruct (IH _ H) as (Hc & Hi & Hlt). cbn in Hc, Hlt.
      split; [lia|]. split; [done|]. intros _. apply Hlt. lia.
    + pose proof (opt_body_distinct np_sqrt p strat st ev E) as Hd.
      destruct (opt_body np_sqrt p strat st ev) as [[st1|e best]|]; cbn in H;
        [|done|done].
      destruct (IH _ H) as (Hc & Hi & Hlt).
      split; [lia|]. split; [done|]. intros Hst. apply Hlt. lia.
Qed.

Lemma count_not_distinct_app (evs evs' : list iteration) :
  count_not_distinct (evs ++ evs') =
  count_not_distinct evs + count_not_distinct evs'.
Proof. induction evs as [|ev evs IH]; cbn [app count_not_distinct]; lia. Qed.

Lemma opt_loop_not_distinct_exit (np_sqrt : Q → Q) (p : Params) (strat : strategy)
    (evs : list iteration) (st : opt_state) (best : option Solution) :
  opt_loop np_sqrt p strat st evs = Some (Returned NotDistinctTooMuch best) →
  max_distinct_repeat_times ≤ current_not_distinct_times st + count_not_distinct evs.
Proof.
  revert st. induction evs as [|ev evs IH]; intros st H.
  - cbn [opt_loop] in H.
    destruct (opt_i st <? get_budget p - get_train_size p); done.
  - cbn [opt_loop] in H.
    destruct (opt_i st <? get_budget p - get_train_size p); [|done].
    cbn [count_not_distinct].
    assert (0 ≤ count_not_distinct evs) as Hnn.
    { clear. induction evs as [|e evs IH]; cbn [count_not_distinct]; [lia|].
      destruct (not_distinct e); lia. }
    destruct (not_distinct ev) eqn:E.
    + rewrite (opt_body_not_distinct _ _ _ _ _ E) in H. cbn in H.
      destruct (Z.leb_spec max_distinct_repeat_times
                  (current_not_distinct_times st + 1)); [lia|].
      specialize (IH _ H). cbn in IH. lia.
    + pose proof (opt_body_distinct np_sqrt p strat st ev E) as Hd.
      destruct (opt_body np_sqrt p strat st ev) as [[st1|e b]|]; cbn in H;
        [|by simplify_eq|done].
      specialize (IH _ H). lia.
Qed.

(** C2 (as the code has it).  [current_not_distinct_times] starts at 0
    and is never reset: while the loop runs it is the number of all
    samples so far that were not distinct, whether or not distinct samples
    came in between.  A pass whose sample is not distinct ends the run
    with the current best solution, by the return statement of the
    counter, exactly when it brings that total to 100; below 100 the loop
    goes on with the counter one higher.  No run ends by that return
    statement with fewer than 100 such samples in all. *)
Theorem not_distinct_exit_is_cumulative (np_sqrt : Q → Q) (p : Params)
    (strat : strategy) (st st' : opt_state) (evs : list iteration)
    (ev : iteration) :
  current_not_distinct_times st = 0 →
  opt_loop np_sqrt p strat st evs = Some (Running st') →
  not_distinct ev = true →
  current_not_distinct_times st' = count_not_distinct evs ∧
  count_not_distinct evs < 100 ∧
  (opt_loop np_sqrt p strat st (evs ++ [ev])
     = Some (Returned NotDistinctTooMuch (_best_solution (opt_common st')))
   ↔ count_not_distinct (evs ++ [ev]) = 100) ∧
  (count_not_distinct (evs ++ [ev]) < 100 →
   opt_loop np_sqrt p strat st (evs ++ [ev])
     = Some (Running (mkOptState (opt_common st') (opt_i st')
                        (current_not_distinct_times st' + 1)))) ∧
  (∀ evs0 best,
     opt_loop np_sqrt p strat st evs0 = Some (Returned NotDistinctTooMuch best) →
     100 ≤ count_not_distinct evs0).
Proof.
  intros H0 Hrun Hev.
  destruct (opt_loop_running_counter np_sqrt p strat evs st st' Hrun)
    as (Hc & Hi & Hlt).
  rewrite H0 in Hc. simpl in Hc.
  assert (current_not_distinct_times st' < 100) as Hlt'.
  { apply Hlt. rewrite H0. done. }
  assert (count_not_distinct (evs ++ [ev]) = count_not_distinct evs + 1) as Happ.
  { rewrite count_not_distinct_app. cbn [count_not_distinct]. rewrite Hev. lia. }
  assert (opt_loop np_sqrt p strat st (evs ++ [ev]) =
          if max_distinct_repeat_times <=? current_not_distinct_times st' + 1
          then Some (Returned NotDistinctTooMuch (_best_solution (opt_common st')))
          else Some (Running (mkOptState (opt_common st') (opt_i st')
                                (current_not_distinct_times st' + 1)))) as Hstep.
  { rewrite opt_loop_app, Hrun. cbn [opt_loop].
    destruct (Z.ltb_spec (opt_i st') (get_budget p - get_train_size p)); [|lia].
    rewrite (opt_body_not_distinct _ _ _ _ _ Hev). cbn [mbind option_bind].
    destruct (max_distinct_repeat_times <=? current_not_distinct_times st' + 1);
      [done|].
    cbn [opt_i]. destruct (Z.ltb_spec (opt_i st') (get_budget p - get_train_size p));
      [done|lia]. }
  split; [done|]. split; [lia|]. split; [|split].
  - rewrite Hstep, Happ. unfold max_distinct_repeat_times.
    destruct (Z.leb_spec 100 (current_not_distinct_times st' + 1)).
    + split; [lia|done].
    + split; [done|lia].
  - intros Hsmall. rewrite Hstep. unfold max_distinct_repeat_times.
    destruct (Z.leb_spec 100 (current_not_distinct_times st' + 1)); [lia|done].
  - intros evs0 best Hret.
    pose proof (opt_loop_not_distinct_exit np_sqrt p strat evs0 st best Hret) as H.
    rewrite H0 in H. unfold max_distinct_repeat_times in H. lia.
Qed.

Lemma not_distinct_exit_is_cumulative_witness :
  current_not_distinct_times after_99_repeats
    = count_not_distinct (replicate 99 repeated_pass) ∧
  count_not_distinct (replicate 99 repeated_pass) < 100 ∧
  (opt_loop sqrt_exact small_run WR small_start
     (replicate 99 repeated_pass ++ [repeated_pass])
     = Some (Returned NotDistinctTooMuch
               (_best_solution (opt_common after_99_repeats)))
   ↔ count_not_distinct (replicate 99 repeated_pass ++ [repeated_pass]) = 100) ∧
  (count_not_distinct (replicate 99 repeated_pass ++ [repeated_pass]) < 100 →
   opt_loop sqrt_exact small_run WR small_start
     (replicate 99 repeated_pass ++ [repeated_pass])
     = Some (Running (mkOptState (opt_common after_99_repeats)
                        (opt_i after_99_repeats)
                        (current_not_distinct_times after_99_repeats + 1)))) ∧
  (∀ evs0 best,
     opt_loop sqrt_exact small_run WR small_start evs0
       = Some (Returned NotDistinctTooMuch best) →
     100 ≤ count_not_distinct evs0).
Proof.
  apply (not_distinct_exit_is_cumulative sqrt_exact small_run WR small_start
           after_99_repeats (replicate 99 repeated_pass) repeated_pass).
  - reflexivity.
  - vm_compute. reflexivity.
  - reflexivity.
Defined.

(** C2, counterexample.  99 samples that are not distinct, then a distinct
    one, then a single sample that is not distinct: the run ends by the
    return statement of the counter although no more than 99 such samples
    ever came in a row. *)
Lemma not_distinct_exit_without_100_in_a_row :
  opt_loop sqrt_exact small_run WR small_start interrupted_repeats
    = Some (Returned NotDistinctTooMuch (Some (sol 1))) ∧
  longest_not_distinct_run 0 interrupted_repeats = 99 ∧
  count_not_distinct interrupted_repeats = 100.
Proof. repeat split; vm_compute; reflexivity. Qed.

(** ** The suggest/complete driver *)


Lemma complete_counters (np_sqrt : Q → Q) (p : Params) (st st' : tune_state)
    (solution : Solution) (res : result) (ret : option Solution) :
  complete np_sqrt p st solution res = Some (st', ret) →
  init_num st' = init_num st ∧ complete_num st' = complete_num st + 1 ∧
  live_num st' = live_num st - 1.
Proof.
  unfold complete. intros H.
  destruct res; [|by simplify_eq..].
  destruct (complete_num st + 1 <? get_train_size p).
  { destruct (selection p _); [|done]. cbn in H. by simplify_eq. }
  destruct (complete_num st + 1 =? get_train_size p);
    (destruct (update_classifier _ _ _ _ _) as [[c1 b1]|]; [|done]);
    cbn in H; by simplify_eq.
Qed.




Example first_two_reported_run :
  tune_run sqrt_exact tune_params tune_init first_two_reported = Some staged_two.
Proof. vm_compute. reflexivity. Qed.

(** C10.  After initialization ([init_num > train_size]), with the gate
    open and [live_num >= server_num], [suggest] returns nothing (not the
    ["FINISHED"] marker) and leaves [live_num], the gate, [complete_num]
    and the archives as they are, but adds one to [init_num].  Repeating
    the call keeps doing so: after [n] such calls [init_num] has grown by
    [n], so it is not bounded and does not count the initialization
    samples issued. *)
Theorem suggest_at_capacity_still_counts (p : Params) (st : tune_state)
    (d : draw) :
  get_train_size p < init_num st →
  semaphore st = 1 →
  get_server_num p ≤ live_num st →
  suggest p st d =
    (mkTuneState (tune_common st) (init_num st + 1) (complete_num st)
       (semaphore st) (live_num st), Nothing) ∧
  ∀ ds : list draw,
    suggest_all p st ds =
      (mkTuneState (tune_common st) (init_num st + Py.len ds) (complete_num st)
         (semaphore st) (live_num st), replicate (length ds) Nothing).
Proof.
  intros Hinit Hsem Hlive.
  assert (∀ st0 d0, get_train_size p < init_num st0 → semaphore st0 = 1 →
            get_server_num p ≤ live_num st0 →
            suggest p st0 d0 =
              (mkTuneState (tune_common st0) (init_num st0 + 1) (complete_num st0)
                 (semaphore st0) (live_num st0), Nothing)) as Hone.
  { intros st0 d0 Hi Hs Hl. unfold suggest. rewrite Hs. cbn.
    destruct (Z.ltb_spec (init_num st0) (get_train_size p)); [lia|].
    destruct (Z.eqb_spec (init_num st0) (get_train_size p)); [lia|].
    destruct (Z.ltb_spec (live_num st0) (get_server_num p)); [lia|].
    done. }
  split; [by apply Hone|].
  intros ds. revert st Hinit Hsem Hlive.
  induction ds as [|d0 ds IH]; intros st Hinit Hsem Hlive.
  - destruct st. cbn. by rewrite Z.add_0_r.
  - cbn [suggest_all]. rewrite (Hone st d0 Hinit Hsem Hlive).
    rewrite IH; cbn [tune_common init_num complete_num semaphore live_num];
      [|lia|done|done].
    replace (init_num st + 1 + Py.len ds) with (init_num st + Py.len (d0 :: ds));
      [done|].
    unfold Py.len. cbn [length]. lia.
Qed.

Lemma suggest_at_capacity_still_counts_witness :
  suggest tune_params at_capacity (fresh 3) =
    (mkTuneState (tune_common at_capacity) (init_num at_capacity + 1)
       (complete_num at_capacity) (semaphore at_capacity)
       (live_num at_capacity), Nothing) ∧
  ∀ ds : list draw,
    suggest_all tune_params at_capacity ds =
      (mkTuneState (tune_common at_capacity) (init_num at_capacity + Py.len ds)
         (complete_num at_capacity) (semaphore at_capacity)
         (live_num at_capacity), replicate (length ds) Nothing).
Proof.
  apply (suggest_at_capacity_still_counts tune_params at_capacity (fresh 3)).
  - reflexivity.
  - reflexivity.
  - vm_compute. discriminate.
Defined.

(** C5 (as the code has it).  When [result] is NaN or infinite,
    [complete] returns the best solution so far and changes neither the
    staged solutions nor the archives; it adds one to [complete_num] and
    takes one from [live_num].  [complete_num] is the count the driver
    compares with [train_size] to tell a staged initialization result from
    the completion that ends initialization, so this trial does advance
    it: if it brings [complete_num] to [train_size] the gate reopens
    ([suggest] no longer returns at its first test), otherwise the gate
    stays as it was. *)
Theorem complete_invalid_result (np_sqrt : Q → Q) (p : Params)
    (st : tune_state) (solution : Solution) (res : result) :
  isnan res || isinf res = true →
  ∃ st',
    complete np_sqrt p st solution res
      = Some (st', _best_solution (tune_common st)) ∧
    tune_common st' = tune_common st ∧
    init_num st' = init_num st ∧
    complete_num st' = complete_num st + 1 ∧
    live_num st' = live_num st - 1 ∧
    (complete_num st + 1 = get_train_size p → semaphore st' = 1) ∧
    (complete_num st + 1 ≠ get_train_size p → semaphore st' = semaphore st).
Proof.
  intros Hres.
  exists (mkTuneState (tune_common st) (init_num st) (complete_num st + 1)
            (if complete_num st + 1 =? get_train_size p then 1 else semaphore st)
            (live_num st - 1)).
  split.
  { destruct res; [done|reflexivity..]. }
  cbn. repeat split.
  - intros Heq. by rewrite (proj2 (Z.eqb_eq _ _) Heq).
  - intros Hne. by rewrite (proj2 (Z.eqb_neq _ _) Hne).
Qed.

Lemma complete_invalid_result_witness :
  ∃ st',
    complete sqrt_exact tune_params staged_two (sol_at 9 0) NaN
      = Some (st', _best_solution (tune_common staged_two)) ∧
    tune_common st' = tune_common staged_two ∧
    init_num st' = init_num staged_two ∧
    complete_num st' = complete_num staged_two + 1 ∧
    live_num st' = live_num staged_two - 1 ∧
    (complete_num staged_two + 1 = get_train_size tune_params →
     semaphore st' = 1) ∧
    (complete_num staged_two + 1 ≠ get_train_size tune_params →
     semaphore st' = semaphore staged_two).
Proof.
  apply (complete_invalid_result sqrt_exact tune_params staged_two (sol_at 9 0) NaN).
  reflexivity.
Defined.

(** C5, counterexample.  Two of four initialization results are staged.
    Reported next, the result 6 is staged as the third one and the gate
    stays closed.  Reported after a NaN result, the same result 6 is taken
    as the completion that ends initialization: it is not staged, the
    archives are updated from the two staged solutions, and the gate
    reopens.  The NaN trial was counted. *)
Lemma invalid_result_advances_deciding_count :
  tune_run sqrt_exact tune_params staged_two
    [CallComplete (sol_at 6 0) (Finite 6)]
    = Some (mkTuneState
              (mkRacosCommon [sol 5; sol 6; sol 7] [sol 5] [sol 6; sol 7]
                 (Some (sol 5))) 5 3 0 1) ∧
  tune_run sqrt_exact tune_params staged_two
    [CallComplete (sol_at 9 0) NaN; CallComplete (sol_at 6 0) (Finite 6)]
    = Some (mkTuneState
              (mkRacosCommon [sol 5; sol 7] [sol 5] [sol 6] (Some (sol 5)))
              5 4 1 0).
Proof. split; vm_compute; reflexivity. Qed.

(** * Further properties of the code *)

(** ** [choose_ub] *)

(** X1.  The uncertain bits chosen for a dimension lie between 1 and 5, and
    between 1 and 3 when the dimension is not discrete, whatever its
    size (zero and negative sizes included). *)
Theorem choose_ub_range (objective : Objective) :
  1 ≤ choose_ub objective ≤ 5 ∧
  (is_discrete (get_dim objective) = false → choose_ub objective ≤ 3).
Proof.
  unfold choose_ub. destruct (is_discrete (get_dim objective)); cbn [negb].
  - split; [|done]. repeat case_match; lia.
  - split; [|intros _]; repeat case_match; lia.
Qed.

(** X2.  A larger dimension never gets fewer uncertain bits, and a discrete
    dimension never gets fewer than a continuous one of the same size. *)
Theorem choose_ub_monotone (f g : option (list Q → Q)) (size size' : Z)
    (discrete : bool) :
  size ≤ size' →
  choose_ub (mkObjective f (mkDimension size discrete))
    ≤ choose_ub (mkObjective g (mkDimension size' discrete)) ∧
  choose_ub (mkObjective f (mkDimension size false))
    ≤ choose_ub (mkObjective g (mkDimension size true)).
Proof.
  intros Hle. unfold choose_ub. cbn [get_dim get_size is_discrete negb].
  split.
  - destruct discrete; cbn [negb];
      repeat match goal with
             | |- context [?a <=? ?b] => destruct (Z.leb_spec a b)
             end; lia.
  - repeat match goal with
           | |- context [?a <=? ?b] => destruct (Z.leb_spec a b)
           end; lia.
Qed.

Lemma choose_ub_monotone_witness :
  choose_ub (mkObjective None (mkDimension 40 true))
    ≤ choose_ub (mkObjective None (mkDimension 2000 true)) ∧
  choose_ub (mkObjective None (mkDimension 40 false))
    ≤ choose_ub (mkObjective None (mkDimension 40 true)).
Proof.
  apply (choose_ub_monotone None None 40 2000 true). vm_compute. discriminate.
Defined.

(** ** [distance] *)

Lemma Qsquare_diff_sym (a b : Q) : ((a - b) ^ 2 = (b - a) ^ 2)%Q.
Proof.
  destruct a as [an ad], b as [bn bd].
  unfold Qminus, Qplus, Qopp, Qpower, Qpower_positive, pow_pos, Qmult.
  cbn [Qnum Qden]. f_equal; [ring|f_equal; lia].
Qed.





Lemma distance_loop_sym (dis : Q) (x y : list Q) :
  length x = length y → distance_loop dis x y = distance_loop dis y x.
Proof.
  revert dis y. induction x as [|a x IH]; intros dis y Hlen.
  - by destruct y.
  - destruct y as [|b y]; [done|]. cbn [distance_loop].
    rewrite (Qsquare_diff_sym a b). apply IH. simpl in Hlen. lia.
Qed.


(** X4.  Between two coordinate vectors of the same length the distance does
    not depend on the order of the arguments. *)
Theorem distance_symmetric (np_sqrt : Q → Q) (x y : list Q) :
  length x = length y → distance np_sqrt x y = distance np_sqrt y x.
Proof.
  intros Hlen. unfold distance. by rewrite (distance_loop_sym 0%Q x y Hlen).
Qed.

Lemma distance_symmetric_witness :
  distance sqrt_exact [3; 0]%Q [0; 4]%Q = distance sqrt_exact [0; 4]%Q [3; 0]%Q.
Proof. apply (distance_symmetric sqrt_exact [3; 0]%Q [0; 4]%Q). reflexivity. Defined.

(** With vectors of different lengths the order matters: one call raises,
    the other compares the common prefix. *)
Example distance_lengths_differ :
  distance sqrt_exact [3; 4]%Q [0]%Q = None ∧
  distance sqrt_exact [0]%Q [3; 4]%Q = Some 3%Q.
Proof. split; reflexivity. Qed.

(** ** Worst-replace on the positive archive, sorted or not *)

(** On a non-empty list the search returns, whatever the order of the
    list. *)
Lemma binary_search_total (depth : nat) (iset : list Solution) (x : Solution) :
  ∀ b e : Z,
  0 ≤ b ≤ e → e < Py.len iset → e - b < Z.of_nat depth →
  ∃ k, binary_search depth iset x b e = Some k ∧ b ≤ k ≤ e + 1.
Proof.
  induction depth as [|depth IH]; intros b e Hbe He Hd; [lia|].
  destruct (getitem_in_range iset b) as [vb Hb]; [lia|].
  destruct (getitem_in_range iset e) as [ve He']; [lia|].
  cbn [binary_search]. rewrite Hb. cbn [mbind option_bind].
  destruct (Qle_bool (get_value x) (get_value vb)) eqn:E1.
  { exists b. split; [done|lia]. }
  apply Qle_bool_false in E1.
  rewrite He'. cbn [mbind option_bind].
  destruct (Qle_bool (get_value ve) (get_value x)) eqn:E2.
  { exists (e + 1). split; [done|lia]. }
  apply Qle_bool_false in E2.
  destruct (Z.eqb_spec e (b + 1)) as [Heq|Hne].
  { exists e. split; [done|lia]. }
  assert (b < e).
  { destruct (Z.eq_dec b e) as [->|]; [|lia].
    assert (vb = ve) by congruence. subst. lra. }
  set (mid := b + (e - b) / 2).
  assert (b < mid < e) as Hmid.
  { unfold mid. pose proof (Z.div_lt_upper_bound (e - b) 2 (e - b)).
    assert (1 ≤ (e - b) / 2) by (apply Z.div_le_lower_bound; lia). lia. }
  destruct (getitem_in_range iset mid) as [vm Hm]; [lia|].
  rewrite Hm. cbn [mbind option_bind].
  destruct (Qle_bool (get_value x) (get_value vm)).
  - destruct (IH b mid) as (k & Hk & Hr); [lia|lia|lia|].
    exists k. split; [done|lia].
  - destruct (IH mid e) as (k & Hk & Hr); [lia|lia|lia|].
    exists k. split; [done|lia].
Qed.

(** What the positive branch of [strategy_wr] leaves and returns, given
    the index the search found. *)
Lemma strategy_wr_pos_shape (iset : list Solution) (x : Solution) (k : Z) :
  binary_search (search_depth iset) iset x 0 (Py.len iset - 1) = Some k →
  0 ≤ k ≤ Py.len iset →
  ∃ w iset',
    strategy_wr iset x pos = Some (w, iset') ∧
    iset' ++ [w] = take (Z.to_nat k) iset ++ x :: drop (Z.to_nat k) iset.
Proof.
  intros Hk Hr. unfold strategy_wr. rewrite Hk. cbn [mbind option_bind].
  set (n := Z.to_nat k).
  assert (Py.insert iset k x = take n iset ++ x :: drop n iset) as ->.
  { unfold Py.insert. destruct (Z.leb_spec 0 k); [done|lia]. }
  set (l := take n iset ++ x :: drop n iset).
  destruct (pop_nonempty l) as (e & He & Hpop).
  { unfold l. by destruct (take n iset). }
  rewrite Hpop. exists e, (take (length l - 1) l). split; [done|].
  assert (length l ≠ 0%nat) by (unfold l; rewrite length_app; simpl; lia).
  rewrite last_lookup in He.
  replace (Init.Nat.pred (length l)) with (length l - 1)%nat in He by lia.
  rewrite <- (take_S_r _ _ _ He).
  replace (S (length l - 1)) with (length l) by lia. by rewrite firstn_all.
Qed.

(** X5.  On every non-empty positive archive, sorted or not, worst-replace
    returns: it never raises, it keeps the size of the archive, and the
    solutions it leaves together with the one it returns are exactly the
    old ones and the new one. *)
Theorem strategy_wr_pos_conserves (iset : list Solution) (x : Solution) :
  iset ≠ [] →
  ∃ w iset',
    strategy_wr iset x pos = Some (w, iset') ∧
    length iset' = length iset ∧
    w :: iset' ≡ₚ x :: iset.
Proof.
  intros Hne.
  assert (0 < Py.len iset) by (unfold Py.len; destruct iset; [done|simpl; lia]).
  destruct (binary_search_total (search_depth iset) iset x 0 (Py.len iset - 1))
    as (k & Hk & Hr); [lia|lia|unfold search_depth, Py.len; lia|].
  destruct (strategy_wr_pos_shape iset x k Hk ltac:(lia)) as (w & iset' & Hwr & Hl).
  exists w, iset'. split; [done|].
  assert (w :: iset' ≡ₚ x :: iset) as Hperm.
  { rewrite (Permutation_cons_append iset' w), Hl.
    rewrite <- Permutation_middle. by rewrite take_drop. }
  split; [|done].
  apply Permutation_length in Hperm. simpl in Hperm. lia.
Qed.

Lemma strategy_wr_pos_conserves_witness :
  ∃ w iset',
    strategy_wr [sol 3; sol 1; sol 2] (sol 0) pos = Some (w, iset') ∧
    length iset' = length [sol 3; sol 1; sol 2] ∧
    w :: iset' ≡ₚ sol 0 :: [sol 3; sol 1; sol 2].
Proof. apply (strategy_wr_pos_conserves [sol 3; sol 1; sol 2] (sol 0)). discriminate. Defined.

(** Both ends of a sorted positive archive after worst-replace. *)
Lemma strategy_wr_pos_ends (iset : list Solution) (x b0 : Solution) :
  sorted_by_value iset →
  iset !! 0%nat = Some b0 →
  ∃ w iset' b1,
    strategy_wr iset x pos = Some (w, iset') ∧
    sorted_by_value iset' ∧ length iset' = length iset ∧
    (∀ a, a ∈ iset' → (get_value a <= get_value w)%Q) ∧
    (get_value x <= get_value w)%Q ∧
    iset' !! 0%nat = Some b1 ∧
    (b1 = b0 ∨ b1 = x) ∧
    (get_value b1 <= get_value b0)%Q ∧
    (get_value b1 <= get_value x)%Q.
Proof.
  intros Hs Hb0.
  assert (iset ≠ []) as Hne by (intros ->; done).
  destruct (binary_search_depth_enough iset x Hs Hne) as (k & Hk & Hr & H1 & H2).
  destruct (strategy_wr_pos_shape iset x k Hk Hr) as (w & iset' & Hwr & Hl).
  set (n := Z.to_nat k) in *.
  assert (n ≤ length iset)%nat as Hn by (unfold Py.len in Hr; lia).
  assert (sorted_by_value (iset' ++ [w])) as Hsorted.
  { rewrite Hl. apply sorted_by_value_insert; [done|done| |].
    - intros i a Hi Ha. apply (H1 (Z.of_nat i)); [lia|]. by rewrite getitem_of_nat.
    - intros i a Hi Ha. apply (H2 (Z.of_nat i)); [lia|]. by rewrite getitem_of_nat. }
  assert (length (iset' ++ [w]) = S (length iset)) as Hlen.
  { rewrite Hl, length_app. simpl. rewrite length_take, length_drop. lia. }
  rewrite length_app in Hlen. simpl in Hlen.
  assert (length iset ≠ 0%nat) by (destruct iset; done).
  assert ((iset' ++ [w]) !! length iset' = Some w) as Hw.
  { by rewrite lookup_app_r, Nat.sub_diag. }
  assert (∀ a, a ∈ iset' ++ [w] → (get_value a <= get_value w)%Q) as Hmax.
  { intros a Ha. apply list_elem_of_lookup_1 in Ha as [i Hi].
    apply (sorted_by_value_le (iset' ++ [w]) i (length iset') a w); [done| |done|done].
    apply lookup_lt_Some in Hi. rewrite length_app in Hi. simpl in Hi. lia. }
  destruct (lookup_lt_is_Some_2 iset' 0%nat) as [b1 Hb1]; [lia|].
  assert ((iset' ++ [w]) !! 0%nat = Some b1) as Hb1' by (by apply lookup_app_l_Some).
  assert (∀ a, a ∈ iset' ++ [w] → (get_value b1 <= get_value a)%Q) as Hmin.
  { intros a Ha. apply list_elem_of_lookup_1 in Ha as [i Hi].
    apply (sorted_by_value_le (iset' ++ [w]) 0 i b1 a); [done|lia|done|done]. }
  assert (x ∈ iset' ++ [w]) as Hx.
  { rewrite Hl. apply elem_of_app. right. apply elem_of_cons. by left. }
  assert (b0 ∈ iset' ++ [w]) as Hb0in.
  { rewrite Hl. apply list_elem_of_lookup_2 in Hb0.
    rewrite <- (take_drop n iset) in Hb0. apply elem_of_app in Hb0 as [?|?];
      apply elem_of_app; [by left|right; apply elem_of_cons; by right]. }
  exists w, iset', b1. split; [done|]. split.
  { intros i a b Ha Hb. apply (Hsorted i a b); by apply lookup_app_l_Some. }
  split; [lia|]. split.
  { intros a Ha. apply Hmax. apply elem_of_app. by left. }
  split; [by apply Hmax|]. split; [done|]. split.
  { rewrite Hl in Hb1'. destruct n as [|n'].
    - rewrite take_0 in Hb1'. simpl in Hb1'. simplify_eq. by right.
    - rewrite lookup_app_l in Hb1' by (rewrite length_take; lia).
      rewrite lookup_take_lt in Hb1' by lia. left. congruence. }
  split; [by apply Hmin|by apply Hmin].
Qed.

(** X6.  On a sorted positive archive, the solution worst-replace returns is a
    worst one: no solution left in the archive, nor the new solution, has
    a larger value.  The solution then at index 0 is the old best solution
    or the new solution, and is at least as good as both: the best value
    never gets worse. *)
Theorem strategy_wr_pos_evicts_worst (iset : list Solution) (x b0 : Solution) :
  sorted_by_value iset →
  iset !! 0%nat = Some b0 →
  ∃ w iset' b1,
    strategy_wr iset x pos = Some (w, iset') ∧
    (∀ a, a ∈ iset' → (get_value a <= get_value w)%Q) ∧
    (get_value x <= get_value w)%Q ∧
    iset' !! 0%nat = Some b1 ∧
    (b1 = b0 ∨ b1 = x) ∧
    (get_value b1 <= get_value b0)%Q ∧
    (get_value b1 <= get_value x)%Q.
Proof.
  intros Hs Hb0.
  destruct (strategy_wr_pos_ends iset x b0 Hs Hb0)
    as (w & iset' & b1 & Hwr & _ & _ & Hrest).
  by exists w, iset', b1.
Qed.

Lemma strategy_wr_pos_evicts_worst_witness :
  ∃ w iset' b1,
    strategy_wr [sol 1; sol 3; sol 5] (sol 2) pos = Some (w, iset') ∧
    (∀ a, a ∈ iset' → (get_value a <= get_value w)%Q) ∧
    (get_value (sol 2) <= get_value w)%Q ∧
    iset' !! 0%nat = Some b1 ∧
    (b1 = sol 1 ∨ b1 = sol 2) ∧
    (get_value b1 <= get_value (sol 1))%Q ∧
    (get_value b1 <= get_value (sol 2))%Q.
Proof.
  apply (strategy_wr_pos_evicts_worst [sol 1; sol 3; sol 5] (sol 2) (sol 1)).
  - apply is_sorted_sound. reflexivity.
  - reflexivity.
Defined.

(** ** Random and largest-margin replacement *)

Lemma list_insert_Permutation {A} (l : list A) (i : nat) (e x : A) :
  l !! i = Some e → e :: <[i := x]> l ≡ₚ x :: l.
Proof.
  revert i. induction l as [|a l IH]; intros i Hi; [done|].
  destruct i as [|i]; simpl in *.
  - simplify_eq. apply perm_swap.
  - rewrite (perm_swap a e), (IH i Hi). apply perm_swap.
Qed.

Lemma strategy_lm_loop_index (np_sqrt : Q → Q) (rest : list Solution) (i : Z)
    (best_sol : Solution) (fd fd' : Q) (fi k : Z) :
  0 ≤ i → 0 ≤ fi →
  strategy_lm_loop np_sqrt rest i best_sol fd fi = Some (fd', k) → 0 ≤ k.
Proof.
  revert i fd fi. induction rest as [|s rest IH]; intros i fd fi Hi Hfi H.
  - simpl in H. by simplify_eq.
  - cbn [strategy_lm_loop] in H.
    destruct (distance np_sqrt (get_x s) (get_x best_sol)) as [d|]; [|done].
    cbn [mbind option_bind] in H.
    destruct (Qlt_bool fd d); apply IH in H; lia.
Qed.

(** X7.  Under the RR and LM strategies [replace] raises on an empty archive.
    When it returns, it has overwritten exactly one position of the
    archive with the new solution (under RR the position drawn) and
    returns the solution that was there: the archive keeps its size, and
    no solution other than the returned one is lost. *)
Theorem replace_overwrites_one_position (np_sqrt : Q → Q) (iset : list Solution)
    (x : Solution) (ty : iset_type) (strat : strategy) (r : Z) :
  strat ≠ WR →
  replace np_sqrt [] x ty strat r = None ∧
  ∀ e iset',
    replace np_sqrt iset x ty strat r = Some (e, iset') →
    ∃ i, 0 ≤ i < Py.len iset ∧ (strat = RR → i = r) ∧
      Py.getitem iset i = Some e ∧
      iset' = <[Z.to_nat i := x]> iset ∧
      length iset' = length iset ∧
      e :: iset' ≡ₚ x :: iset.
Proof.
  intros Hstrat. split.
  { destruct strat; [done| |reflexivity].
    cbn [replace]. unfold strategy_rr.
    destruct (Z.leb_spec 0 r); [|done].
    destruct (Z.ltb_spec r (Py.len (@nil Solution))) as [Hlt|]; [|done].
    unfold Py.len in Hlt. simpl in Hlt. lia. }
  intros e iset' H.
  assert (∃ i, 0 ≤ i < Py.len iset ∧ (strat = RR → i = r) ∧
            Py.getitem iset i = Some e ∧
            iset' = <[Z.to_nat i := x]> iset) as (i & Hi & Hr & He & ->).
  { destruct strat; [done| |]; cbn [replace] in H.
    - unfold strategy_rr in H.
      destruct (Z.leb_spec 0 r); [|done].
      destruct (Z.ltb_spec r (Py.len iset)); [|done]. cbn [andb] in H.
      destruct (Py.getitem iset r) as [e0|] eqn:E; [|done].
      cbn [mbind option_bind] in H. rewrite setitem_in_range in H by lia.
      cbn in H. simplify_eq. exists r. done.
    - destruct (Py.min_by_value iset) as [best_sol|]; [|done].
      cbn [mbind option_bind] in H. unfold strategy_lm in H.
      destruct (strategy_lm_loop np_sqrt iset 0 best_sol 0%Q 0) as [[fd k]|] eqn:E;
        [|done].
      cbn [mbind option_bind] in H.
      apply strategy_lm_loop_index in E; [|lia|lia].
      destruct (Py.getitem iset k) as [e0|] eqn:E'; [|done].
      cbn [mbind option_bind] in H.
      pose proof (getitem_Some_range iset k e0 E E').
      rewrite setitem_in_range in H by lia. cbn in H. simplify_eq.
      exists k. done. }
  exists i. split; [done|]. split; [done|]. split; [done|]. split; [done|].
  split; [apply length_insert|].
  apply list_insert_Permutation. by rewrite <- getitem_nonneg by lia.
Qed.

Lemma replace_overwrites_one_position_witness :
  replace sqrt_exact [] (sol 7) neg RR 1 = None ∧
  ∀ e iset',
    replace sqrt_exact [sol 5; sol 6; sol 9] (sol 7) neg RR 1 = Some (e, iset') →
    ∃ i, 0 ≤ i < Py.len [sol 5; sol 6; sol 9] ∧ (RR = RR → i = 1) ∧
      Py.getitem [sol 5; sol 6; sol 9] i = Some e ∧
      iset' = <[Z.to_nat i := sol 7]> [sol 5; sol 6; sol 9] ∧
      length iset' = length [sol 5; sol 6; sol 9] ∧
      e :: iset' ≡ₚ sol 7 :: [sol 5; sol 6; sol 9].
Proof.
  apply (replace_overwrites_one_position sqrt_exact [sol 5; sol 6; sol 9]
           (sol 7) neg RR 1).
  discriminate.
Defined.

Example replace_rr_run :
  replace sqrt_exact [sol 5; sol 6; sol 9] (sol 7) neg RR 1
    = Some (sol 6, [sol 5; sol 7; sol 9]).
Proof. reflexivity. Qed.

(** ** The loop of [opt] *)

(** What a pass that evaluates its sample can do. *)
Lemma opt_body_evaluated (np_sqrt : Q → Q) (p : Params) (strat : strategy)
    (st : opt_state) (ev : iteration) (r : step) :
  not_distinct ev = false →
  opt_body np_sqrt p strat st ev = Some r →
  (fst (sampled ev) = None ∧
   r = Return SolutionIsNone (_best_solution (opt_common st))) ∨
  (∃ s c' b,
     fst (sampled ev) = Some s ∧
     update_archives np_sqrt (opt_common st) (set_value s (evaluated ev)) strat
       (rand_index ev) = Some c' ∧
     _best_solution c' = Some b ∧
     (r = Continue (mkOptState c' (opt_i st + 1) (current_not_distinct_times st)) ∨
      (∃ e, r = Return e (Some b) ∧ e ≠ NotDistinctTooMuch ∧ e ≠ BudgetSpent ∧
            (e = TerminalValueReached → terminal_reached p b = true)))).
Proof.
  unfold not_distinct, opt_body. intros Hnd H.
  destruct (fst (sampled ev)) as [s|]; [|left; by simplify_eq].
  rewrite Hnd in H. right.
  destruct (update_archives _ _ _ _ _) as [c1|] eqn:Eu; [|done].
  cbn [mbind option_bind] in H.
  destruct (_best_solution c1) as [b1|] eqn:Eb; [|done].
  cbn [mbind option_bind] in H.
  exists s, c1, b1. split; [done|]. split; [done|]. split; [done|].
  destruct (time_budget_out ev).
  { simplify_eq. right. exists TimeBudgetOut. done. }
  destruct (terminal_reached p b1) eqn:Et.
  { simplify_eq. right. exists TerminalValueReached. done. }
  destruct (criterion ev).
  { simplify_eq. right. exists CriterionMet. done. }
  simplify_eq. by left.
Qed.

Lemma update_archives_positive (np_sqrt : Q → Q) (c c' : RacosCommon)
    (x : Solution) (strat : strategy) (r : Z) :
  positive_formed c →
  update_archives np_sqrt c x strat r = Some c' →
  positive_formed c' ∧
  length (_positive_data c') = length (_positive_data c) ∧
  no_worse_than_best (_best_solution c') c ∧
  (∃ b1, _best_solution c' = Some b1 ∧ (get_value b1 <= get_value x)%Q).
Proof.
  intros (Hne & Hs & Hbest) H.
  destruct (lookup_lt_is_Some_2 (_positive_data c) 0%nat) as [b0 Hb0].
  { destruct (_positive_data c); [done|simpl; lia]. }
  destruct (strategy_wr_pos_ends (_positive_data c) x b0 Hs Hb0)
    as (w & iset' & b1 & Hwr & Hs' & Hlen & _ & _ & Hb1 & _ & Hle0 & Hlex).
  unfold update_archives in H. cbn [replace] in H. rewrite Hwr in H.
  cbn [mbind option_bind] in H.
  destruct (replace np_sqrt (_negative_data c) w neg strat r) as [[? negative]|];
    [|done].
  cbn [mbind option_bind] in H.
  rewrite getitem_nonneg in H by lia. change (Z.to_nat 0) with 0%nat in H.
  rewrite Hb1 in H. cbn [mbind option_bind] in H. simplify_eq.
  unfold positive_formed, no_worse_than_best.
  cbn [_positive_data _best_solution]. split; [|split; [done|split]].
  - split; [intros Hnil; by rewrite Hnil in Hb1|]. split; [done|]. by rewrite Hb1.
  - exists b1, b0. split; [done|]. split; [congruence|done].
  - by exists b1.
Qed.

Lemma no_worse_than_best_refl (c : RacosCommon) :
  positive_formed c → no_worse_than_best (_best_solution c) c.
Proof.
  intros (Hne & _ & Hbest).
  destruct (lookup_lt_is_Some_2 (_positive_data c) 0%nat) as [b0 Hb0].
  { destruct (_positive_data c); [done|simpl; lia]. }
  exists b0, b0. rewrite Hbest. split; [done|]. split; [done|lra].
Qed.

Lemma no_worse_than_best_trans (b : option Solution) (c1 c0 : RacosCommon) :
  no_worse_than_best b c1 → no_worse_than_best (_best_solution c1) c0 →
  no_worse_than_best b c0.
Proof.
  intros (b2 & b1 & Hb & Hc1 & Hle) (b1' & b0 & Hb1 & Hc0 & Hle').
  exists b2, b0. split; [done|]. split; [done|].
  assert (b1 = b1') by congruence. subst. lra.
Qed.

(** X8.  While the loop of [opt] runs on a positive archive that is sorted and
    not empty, the archive stays sorted and keeps its size, the best
    solution is its element at index 0, and the best value is no larger
    than it was at the start. *)
Theorem opt_loop_keeps_positive_archive (np_sqrt : Q → Q) (p : Params)
    (strat : strategy) (evs : list iteration) (st st' : opt_state) :
  positive_formed (opt_common st) →
  opt_loop np_sqrt p strat st evs = Some (Running st') →
  positive_formed (opt_common st') ∧
  length (_positive_data (opt_common st'))
    = length (_positive_data (opt_common st)) ∧
  no_worse_than_best (_best_solution (opt_common st')) (opt_common st).
Proof.
  revert st. induction evs as [|ev evs IH]; intros st Hinv H.
  - cbn [opt_loop] in H.
    destruct (opt_i st <? get_budget p - get_train_size p); [|done].
    simplify_eq. split; [done|]. split; [done|]. by apply no_worse_than_best_refl.
  - cbn [opt_loop] in H.
    destruct (opt_i st <? get_budget p - get_train_size p); [|done].
    destruct (not_distinct ev) eqn:E.
    + rewrite (opt_body_not_distinct _ _ _ _ _ E) in H. cbn in H.
      destruct (max_distinct_repeat_times <=? _); [done|].
      apply IH in H; [exact H|exact Hinv].
    + destruct (opt_body np_sqrt p strat st ev) as [r|] eqn:Er; [|done].
      destruct (opt_body_evaluated _ _ _ _ _ _ E Er)
        as [[_ ->]|(s & c1 & b & _ & Hupd & _ & [->|(e & -> & _)])]; [done| |done].
      cbn in H.
      destruct (update_archives_positive _ _ _ _ _ _ Hinv Hupd)
        as (Hinv1 & Hlen1 & Hbest1 & _).
      apply IH in H; [|exact Hinv1].
      destruct H as (Hinv' & Hlen' & Hbest'). cbn [opt_common] in Hlen', Hbest'.
      split; [done|]. split; [congruence|].
      by apply (no_worse_than_best_trans _ c1).
Qed.

Lemma opt_loop_keeps_positive_archive_witness :
  positive_formed (opt_common two_two_next) ∧
  length (_positive_data (opt_common two_two_next))
    = length (_positive_data (opt_common two_two_start)) ∧
  no_worse_than_best (_best_solution (opt_common two_two_next))
    (opt_common two_two_start).
Proof.
  apply (opt_loop_keeps_positive_archive sqrt_exact small_run LM [better_pass]
           two_two_start two_two_next).
  - split; [discriminate|]. split; [apply is_sorted_sound|]; reflexivity.
  - reflexivity.
Defined.

(** X9.  Whatever return statement ends the loop of [opt], the solution
    returned is at least as good as the best solution the loop started
    with. *)
Theorem opt_result_no_worse_than_start (np_sqrt : Q → Q) (p : Params)
    (strat : strategy) (evs : list iteration) (st : opt_state) (e : exit)
    (best : option Solution) :
  positive_formed (opt_common st) →
  opt_loop np_sqrt p strat st evs = Some (Returned e best) →
  no_worse_than_best best (opt_common st).
Proof.
  revert st. induction evs as [|ev evs IH]; intros st Hinv H.
  - cbn [opt_loop] in H.
    destruct (opt_i st <? get_budget p - get_train_size p); [done|].
    simplify_eq. by apply no_worse_than_best_refl.
  - cbn [opt_loop] in H.
    destruct (opt_i st <? get_budget p - get_train_size p);
      [|simplify_eq; by apply no_worse_than_best_refl].
    destruct (not_distinct ev) eqn:E.
    + rewrite (opt_body_not_distinct _ _ _ _ _ E) in H. cbn in H.
      destruct (max_distinct_repeat_times <=? _).
      * simplify_eq. by apply no_worse_than_best_refl.
      * apply IH in H; [exact H|exact Hinv].
    + destruct (opt_body np_sqrt p strat st ev) as [r|] eqn:Er; [|done].
      destruct (opt_body_evaluated _ _ _ _ _ _ E Er)
        as [[_ ->]|(s & c1 & b & _ & Hupd & Hb & [->|(e' & -> & _)])]; cbn in H.
      * simplify_eq. by apply no_worse_than_best_refl.
      * destruct (update_archives_positive _ _ _ _ _ _ Hinv Hupd)
          as (Hinv1 & _ & Hbest1 & _).
        apply IH in H; [|exact Hinv1]. cbn [opt_common] in H.
        by apply (no_worse_than_best_trans _ c1).
      * simplify_eq.
        destruct (update_archives_positive _ _ _ _ _ _ Hinv Hupd)
          as (_ & _ & Hbest1 & _).
        by rewrite Hb in Hbest1.
Qed.

Lemma opt_result_no_worse_than_start_witness :
  no_worse_than_best (Some (sol 1)) (opt_common small_start).
Proof.
  apply (opt_result_no_worse_than_start sqrt_exact small_run WR
           interrupted_repeats small_start NotDistinctTooMuch (Some (sol 1))).
  - split; [discriminate|]. split; [apply is_sorted_sound|]; reflexivity.
  - vm_compute. reflexivity.
Defined.

Lemma count_evaluated_cons (ev : iteration) (evs : list iteration) :
  count_evaluated (ev :: evs) =
  count_evaluated evs + (if not_distinct ev then 0 else 1).
Proof.
  unfold count_evaluated, Py.len. cbn [length count_not_distinct].
  destruct (not_distinct ev); lia.
Qed.

Lemma opt_loop_running_evaluated (np_sqrt : Q → Q) (p : Params)
    (strat : strategy) (evs : list iteration) (st st' : opt_state) :
  opt_loop np_sqrt p strat st evs = Some (Running st') →
  opt_i st' = opt_i st + count_evaluated evs.
Proof.
  revert st. induction evs as [|ev evs IH]; intros st H.
  - cbn [opt_loop] in H.
    destruct (opt_i st <? get_budget p - get_train_size p); [|done].
    simplify_eq. unfold count_evaluated, Py.len. simpl. lia.
  - cbn [opt_loop] in H. rewrite count_evaluated_cons.
    destruct (opt_i st <? get_budget p - get_train_size p); [|done].
    destruct (not_distinct ev) eqn:E.
    + rewrite (opt_body_not_distinct _ _ _ _ _ E) in H. cbn in H.
      destruct (max_distinct_repeat_times <=? _); [done|].
      apply IH in H. cbn [opt_i] in H. lia.
    + destruct (opt_body np_sqrt p strat st ev) as [r|] eqn:Er; [|done].
      destruct (opt_body_evaluated _ _ _ _ _ _ E Er)
        as [[_ ->]|(s & c1 & b & _ & _ & _ & [->|(e & -> & _)])]; [done| |done].
      cbn in H. apply IH in H. cbn [opt_i] in H. lia.
Qed.

(** X10.  While the loop of [opt] runs, its counter [i] has advanced by the
    number of passes that evaluated their sample, and that number stays
    below [budget - train_size - i]: the loop never evaluates more
    samples than the budget leaves.  The passes that did not evaluate
    are fewer than what the counter of repeats leaves below 100, so the
    loop ends within [(budget - train_size) + 100] passes. *)
Theorem opt_loop_pass_bound (np_sqrt : Q → Q) (p : Params) (strat : strategy)
    (evs : list iteration) (st st' : opt_state) :
  opt_loop np_sqrt p strat st evs = Some (Running st') →
  opt_i st' = opt_i st + count_evaluated evs ∧
  count_evaluated evs < get_budget p - get_train_size p - opt_i st ∧
  (current_not_distinct_times st < 100 →
   Py.len evs < (get_budget p - get_train_size p - opt_i st)
                + (100 - current_not_distinct_times st)).
Proof.
  intros H.
  pose proof (opt_loop_running_evaluated _ _ _ _ _ _ H) as Hi.
  destruct (opt_loop_running_counter _ _ _ _ _ _ H) as (Hc & Hlt & Hcnt).
  split; [done|]. split; [lia|].
  intros Hst. specialize (Hcnt Hst). unfold max_distinct_repeat_times in Hcnt.
  unfold count_evaluated in Hi. lia.
Qed.

Lemma opt_loop_pass_bound_witness :
  opt_i after_99_repeats
    = opt_i small_start + count_evaluated (replicate 99 repeated_pass) ∧
  count_evaluated (replicate 99 repeated_pass)
    < get_budget small_run - get_train_size small_run - opt_i small_start ∧
  (current_not_distinct_times small_start < 100 →
   Py.len (replicate 99 repeated_pass)
     < (get_budget small_run - get_train_size small_run - opt_i small_start)
       + (100 - current_not_distinct_times small_start)).
Proof.
  apply (opt_loop_pass_bound sqrt_exact small_run WR
           (replicate 99 repeated_pass) small_start after_99_repeats).
  vm_compute. reflexivity.
Defined.

(** X11.  When the loop of [opt] ends by the return statement of the terminal
    value, a terminal value is configured and the value of the solution
    returned is at most that value. *)
Theorem opt_terminal_exit_reaches_value (np_sqrt : Q → Q) (p : Params)
    (strat : strategy) (evs : list iteration) (st : opt_state)
    (best : option Solution) :
  opt_loop np_sqrt p strat st evs = Some (Returned TerminalValueReached best) →
  ∃ b tv, best = Some b ∧ get_terminal_value p = Some tv ∧
    (get_value b <= tv)%Q.
Proof.
  revert st. induction evs as [|ev evs IH]; intros st H.
  - cbn [opt_loop] in H.
    destruct (opt_i st <? get_budget p - get_train_size p); done.
  - cbn [opt_loop] in H.
    destruct (opt_i st <? get_budget p - get_train_size p); [|done].
    destruct (not_distinct ev) eqn:E.
    + rewrite (opt_body_not_distinct _ _ _ _ _ E) in H. cbn in H.
      destruct (max_distinct_repeat_times <=? _); [done|]. by apply IH in H.
    + destruct (opt_body np_sqrt p strat st ev) as [r|] eqn:Er; [|done].
      destruct (opt_body_evaluated _ _ _ _ _ _ E Er)
        as [[_ ->]|(s & c1 & b & _ & _ & _ & [->|(e & -> & _ & _ & Ht)])];
        cbn in H; [done|by apply IH in H|].
      simplify_eq. specialize (Ht eq_refl). unfold terminal_reached in Ht.
      destruct (get_terminal_value p) as [tv|]; [|done].
      exists b, tv. split; [done|]. split; [done|]. by apply Qle_bool_iff.
Qed.

Lemma opt_terminal_exit_reaches_value_witness :
  ∃ b tv, Some (sol_at 1 0) = Some b ∧
    get_terminal_value (mkParams 10 2 1 (Some 0%Q) 2) = Some tv ∧
    (get_value b <= tv)%Q.
Proof.
  apply (opt_terminal_exit_reaches_value sqrt_exact (mkParams 10 2 1 (Some 0%Q) 2)
           LM [better_pass] two_two_start (Some (sol_at 1 0))).
  reflexivity.
Defined.

(** ** More on the suggest/complete driver *)

(** X12.  During initialization every call of [suggest] whose sample is not
    flagged as repeated issues a trial: as long as [init_num] stays
    within [train_size], a sequence of such calls returns all its samples
    and counts each of them in [init_num] and [live_num], whatever
    [server_num] is.  The call made when [init_num] has reached
    [train_size] returns nothing and closes the gate. *)
Theorem suggest_issues_initial_trials (p : Params) (ds : list draw)
    (st : tune_state) :
  semaphore st ≠ 0 →
  init_num st + Py.len ds ≤ get_train_size p →
  (∀ d, d ∈ ds → is_False (snd d) = false) →
  suggest_all p st ds =
    (mkTuneState (tune_common st) (init_num st + Py.len ds) (complete_num st)
       (semaphore st) (live_num st + Py.len ds),
     (λ d, return_solution (fst d)) <$> ds) ∧
  (init_num st + Py.len ds = get_train_size p →
   ∀ d, suggest p (fst (suggest_all p st ds)) d =
     (mkTuneState (tune_common st) (get_train_size p + 1) (complete_num st)
        0 (live_num st + Py.len ds), Nothing)).
Proof.
  intros Hsem Hlen Hflags.
  assert (suggest_all p st ds =
    (mkTuneState (tune_common st) (init_num st + Py.len ds) (complete_num st)
       (semaphore st) (live_num st + Py.len ds),
     (λ d, return_solution (fst d)) <$> ds)) as Hall.
  { revert st Hsem Hlen.
    induction ds as [|d ds IH]; intros st Hsem Hlen.
    - destruct st. cbn. by rewrite !Z.add_0_r.
    - assert (Py.len (d :: ds) = 1 + Py.len ds) as Hcons.
      { unfold Py.len. cbn [length]. lia. }
      rewrite Hcons in *.
      assert (0 ≤ Py.len ds) by (unfold Py.len; lia).
      cbn [suggest_all]. unfold suggest at 1.
      destruct (Z.eqb_spec (semaphore st) 0); [done|].
      destruct (Z.ltb_spec (init_num st) (get_train_size p)); [|lia].
      rewrite (Hflags d) by (apply elem_of_cons; by left).
      rewrite IH; cbn [tune_common init_num complete_num semaphore live_num].
      + cbn [fmap list_fmap]. f_equal. f_equal; lia.
      + intros d0 Hd0. apply Hflags. apply elem_of_cons. by right.
      + done.
      + lia. }
  split; [done|].
  intros Heq d. rewrite Hall. cbn [fst]. unfold suggest.
  cbn [tune_common init_num complete_num semaphore live_num].
  destruct (Z.eqb_spec (semaphore st) 0); [done|].
  destruct (Z.ltb_spec (init_num st + Py.len ds) (get_train_size p)); [lia|].
  destruct (Z.eqb_spec (init_num st + Py.len ds) (get_train_size p)); [|lia].
  by rewrite Heq.
Qed.

Lemma suggest_issues_initial_trials_witness :
  suggest_all tune_params tune_init [fresh 5; fresh 7; fresh 6; fresh 9] =
    (mkTuneState (tune_common tune_init)
       (init_num tune_init + Py.len [fresh 5; fresh 7; fresh 6; fresh 9])
       (complete_num tune_init) (semaphore tune_init)
       (live_num tune_init + Py.len [fresh 5; fresh 7; fresh 6; fresh 9]),
     (λ d, return_solution (fst d)) <$> [fresh 5; fresh 7; fresh 6; fresh 9]) ∧
  (init_num tune_init + Py.len [fresh 5; fresh 7; fresh 6; fresh 9]
     = get_train_size tune_params →
   ∀ d, suggest tune_params
          (fst (suggest_all tune_params tune_init
                  [fresh 5; fresh 7; fresh 6; fresh 9])) d =
     (mkTuneState (tune_common tune_init) (get_train_size tune_params + 1)
        (complete_num tune_init) 0
        (live_num tune_init + Py.len [fresh 5; fresh 7; fresh 6; fresh 9]),
      Nothing)).
Proof.
  apply (suggest_issues_initial_trials tune_params
           [fresh 5; fresh 7; fresh 6; fresh 9] tune_init).
  - discriminate.
  - vm_compute. discriminate.
  - intros d Hd. repeat (apply elem_of_cons in Hd as [->|Hd]); try reflexivity.
    by apply elem_of_nil in Hd.
Defined.

Lemma complete_semaphore (np_sqrt : Q → Q) (p : Params) (st st' : tune_state)
    (solution : Solution) (res : result) (ret : option Solution) :
  complete np_sqrt p st solution res = Some (st', ret) →
  semaphore st' =
    if complete_num st + 1 =? get_train_size p then 1 else semaphore st.
Proof.
  unfold complete. intros H.
  destruct res; [|by simplify_eq..].
  destruct (Z.ltb_spec (complete_num st + 1) (get_train_size p)).
  { destruct (selection p _); [|done]. cbn in H. simplify_eq. cbn.
    destruct (Z.eqb_spec (complete_num st + 1) (get_train_size p)); [lia|done]. }
  destruct (complete_num st + 1 =? get_train_size p);
    (destruct (update_classifier _ _ _ _ _) as [[c1 b1]|]; [|done]);
    cbn in H; by simplify_eq.
Qed.

(** X13.  A gate that is closed when [complete_num] has already reached
    [train_size] never reopens: the only statements that open it run when
    [complete_num] becomes equal to [train_size].  After any further
    calls the gate is still closed and [suggest] returns nothing without
    changing the state.  (The driver gets there when all initialization
    results are reported before the call of [suggest] that closes the
    gate.) *)
Theorem closed_gate_never_reopens (np_sqrt : Q → Q) (p : Params)
    (calls : list call) (st st' : tune_state) :
  semaphore st = 0 →
  get_train_size p ≤ complete_num st →
  tune_run np_sqrt p st calls = Some st' →
  semaphore st' = 0 ∧ get_train_size p ≤ complete_num st' ∧
  init_num st' = init_num st ∧
  ∀ d, suggest p st' d = (st', Nothing).
Proof.
  revert st. induction calls as [|[d|solution res] calls IH]; intros st Hsem Hc H.
  - cbn in H. simplify_eq. split; [done|]. split; [done|]. split; [done|].
    intros d. unfold suggest. by rewrite Hsem.
  - cbn [tune_run] in H.
    assert (suggest p st d = (st, Nothing)) as Hs.
    { unfold suggest. by rewrite Hsem. }
    rewrite Hs in H. cbn [fst] in H. by apply IH.
  - cbn [tune_run] in H.
    destruct (complete np_sqrt p st solution res) as [[st1 ret]|] eqn:E; [|done].
    cbn in H.
    pose proof (complete_semaphore _ _ _ _ _ _ _ E) as Hsem1.
    destruct (complete_counters _ _ _ _ _ _ _ E) as (Hi & Hcn & _).
    destruct (Z.eqb_spec (complete_num st + 1) (get_train_size p)); [lia|].
    destruct (IH st1) as (H1 & H2 & H3 & H4); [congruence|lia|done|].
    split; [done|]. split; [done|]. split; [congruence|done].
Qed.

Lemma closed_gate_never_reopens_witness :
  semaphore (mkTuneState (tune_common stuck) 5 5 0 (-1)) = 0 ∧
  get_train_size tune_params
    ≤ complete_num (mkTuneState (tune_common stuck) 5 5 0 (-1)) ∧
  init_num (mkTuneState (tune_common stuck) 5 5 0 (-1)) = init_num stuck ∧
  ∀ d, suggest tune_params (mkTuneState (tune_common stuck) 5 5 0 (-1)) d
       = (mkTuneState (tune_common stuck) 5 5 0 (-1), Nothing).
Proof.
  apply (closed_gate_never_reopens sqrt_exact tune_params
           [CallSuggest (fresh 3); CallComplete (sol_at 8 0) NaN] stuck).
  - reflexivity.
  - vm_compute. discriminate.
  - reflexivity.
Defined.

(** The closed gate of the theorem above is reached from the initial
    state by reporting every initialization result before the call of
    [suggest] that closes the gate. *)
Example stuck_is_reachable :
  tune_run sqrt_exact tune_params tune_init reported_before_gate_closes
    = Some stuck.
Proof. vm_compute. reflexivity. Qed.

(** X14.  Once [complete_num] has reached [train_size], a completion with a
    finite result that returns has updated the archives: the positive
    archive is again sorted, not empty and of the same size, the staged
    solutions are untouched, and the solution returned is the one at
    index 0 of the positive archive, at least as good as the best
    solution before the call and as the result reported. *)
Theorem complete_after_init_returns_best (np_sqrt : Q → Q) (p : Params)
    (st st' : tune_state) (solution : Solution) (v : Q)
    (ret : option Solution) :
  positive_formed (tune_common st) →
  get_train_size p ≤ complete_num st + 1 →
  complete np_sqrt p st solution (Finite v) = Some (st', ret) →
  positive_formed (tune_common st') ∧
  length (_positive_data (tune_common st'))
    = length (_positive_data (tune_common st)) ∧
  _data (tune_common st') = _data (tune_common st) ∧
  ret = _best_solution (tune_common st') ∧
  no_worse_than_best ret (tune_common st) ∧
  (∃ b, ret = Some b ∧ (get_value b <= v)%Q).
Proof.
  intros Hinv Htrain H. unfold complete in H.
  destruct (Z.ltb_spec (complete_num st + 1) (get_train_size p)); [lia|].
  assert (∃ c', update_archives np_sqrt (tune_common st) (set_value solution v) WR 0
                  = Some c' ∧ tune_common st' = c' ∧ ret = _best_solution c')
    as (c' & Hupd & Hc' & Hret).
  { unfold update_classifier in H.
    destruct (update_archives np_sqrt (tune_common st) (set_value solution v) WR 0)
      as [c1|]; [|by destruct (complete_num st + 1 =? get_train_size p)].
    cbn [mbind option_bind] in H.
    destruct (complete_num st + 1 =? get_train_size p); simplify_eq;
      by exists c1. }
  destruct (update_archives_positive _ _ _ _ _ _ Hinv Hupd)
    as (Hinv' & Hlen & Hbest & (b & Hb & Hle)).
  subst c'. split; [done|]. split; [done|]. split.
  { unfold update_archives in Hupd.
    destruct (replace _ _ _ _ _ _) as [[? ?]|]; [|done].
    cbn [mbind option_bind] in Hupd.
    destruct (replace _ _ _ _ _ _) as [[? ?]|]; [|done].
    cbn [mbind option_bind] in Hupd.
    destruct (Py.getitem _ _); [|done]. cbn in Hupd.
    injection Hupd as Heq. by rewrite <- Heq. }
  split; [done|]. rewrite Hret. split; [done|].
  exists b. split; [done|]. by cbn in Hle.
Qed.

Lemma complete_after_init_returns_best_witness :
  positive_formed (tune_common one_reported) ∧
  length (_positive_data (tune_common one_reported))
    = length (_positive_data (tune_common at_capacity)) ∧
  _data (tune_common one_reported) = _data (tune_common at_capacity) ∧
  Some (sol 5) = _best_solution (tune_common one_reported) ∧
  no_worse_than_best (Some (sol 5)) (tune_common at_capacity) ∧
  (∃ b, Some (sol 5) = Some b ∧ (get_value b <= 6)%Q).
Proof.
  apply (complete_after_init_returns_best sqrt_exact tune_params
           (mkTuneState (tune_common at_capacity) 6 4 1 2) one_reported
           (sol_at 6 0) 6 (Some (sol 5))).
  - split; [discriminate|]. split; [apply is_sorted_sound|]; reflexivity.
  - vm_compute. discriminate.
  - reflexivity.
Defined.

(** X15.  A completion with a finite result raises when [complete_num] reaches
    or has passed [train_size] while the positive archive is still empty
    (IndexError in [binary_search]): so does the first such completion of
    a driver with [train_size <= 1], and the completion that ends an
    initialization in which no valid result was staged. *)
Theorem complete_raises_without_archive (np_sqrt : Q → Q) (p : Params)
    (st : tune_state) (solution : Solution) (v : Q) :
  _positive_data (tune_common st) = [] →
  get_train_size p ≤ complete_num st + 1 →
  complete np_sqrt p st solution (Finite v) = None.
Proof.
  intros Hpos Htrain. unfold complete.
  destruct (Z.ltb_spec (complete_num st + 1) (get_train_size p)); [lia|].
  unfold update_classifier, update_archives. cbn [replace]. rewrite Hpos.
  by destruct (complete_num st + 1 =? get_train_size p).
Qed.

Lemma complete_raises_without_archive_witness :
  complete sqrt_exact (mkParams 20 1 1 None 2)
    (mkTuneState (tune_common tune_init) 1 0 1 1) (sol_at 5 0) (Finite 5) = None.
Proof.
  apply (complete_raises_without_archive sqrt_exact (mkParams 20 1 1 None 2)
           (mkTuneState (tune_common tune_init) 1 0 1 1) (sol_at 5 0) 5).
  - reflexivity.
  - vm_compute. discriminate.
Defined.


